(** * ServerSync store core: a shallow embedding and its properties

    The development follows [src/store/core.ts] ([createStoreAPI],
    [shallowEqual]) and [src/store/createStore.ts] ([parseStoreDefinition],
    [bindActionsToStore]).

    Modelling choices, all taken from the TypeScript source:
    - a JavaScript object is an address (its identity, what [Object.is]
      compares) together with its own properties, the enumerable ones
      (what [Object.keys] and spread see) apart from the others (such as
      the [length] of an array).  The store never mutates an object in
      place (every write builds a new object with spread syntax), so the
      properties can travel with the address;
    - property values are primitives or references to nested arrays and
      objects; the store only ever compares them with [Object.is], so a
      nested object is represented by its address alone;
    - numbers are the integer-valued ones, plus [NaN] and [-0], the two
      numbers on which [Object.is] and [===] disagree;
    - the closure variables of [createStoreAPI] ([state], [listeners]) form
      a [cell]; the module-level variables ([storeRegistry],
      [storeIdCounter]), the console and the object allocator form an
      [env];
    - a listener is a function identity together with what a call does:
      return or throw.  [setState] is the write for listeners that leave
      the store alone while they are notified; [setState_live] is the
      write for listeners that also call unsubscribe functions during the
      fan-out, which runs over the live [Set].  A listener that subscribes
      or writes during the fan-out is outside both. *)

From Stdlib Require Import Ascii.
From stdpp Require Import gmap strings list fin_maps pretty.

Open Scope string_scope.
Open Scope list_scope.

(** ** JavaScript values *)

Definition ref := nat.

Inductive prim :=
  | PUndefined
  | PNull
  | PBool (b : bool)
  | PNum (n : Z)
  | PNegZero
  | PNaN
  | PStr (s : string).

(** [StateValue] of [src/types/index.ts]: what a property of the state
    holds. *)
Inductive value :=
  | VPrim (p : prim)
  | VRef (r : ref).

#[global] Instance prim_eq_dec : EqDecision prim.
Proof. solve_decision. Defined.

#[global] Instance value_eq_dec : EqDecision value.
Proof. solve_decision. Defined.

Abbreviation props := (gmap string value).

(** An object: its address, its own enumerable properties and its own
    properties that are not enumerable. *)
Record object := mkObjectWith { addr : ref; own : props; hidden : props }.

(** An object all of whose own properties are enumerable: an object
    literal, the result of a spread. *)
Definition mkObject (a : ref) (p : props) : object := mkObjectWith a p ∅.

(** The type [any] of the arguments of [shallowEqual]. *)
Inductive any :=
  | APrim (p : prim)
  | AObj (o : object)
  | AFun (r : ref).

Definition typeof (a : any) : string :=
  match a with
  | APrim PUndefined => "undefined"
  | APrim PNull => "object"
  | APrim (PBool _) => "boolean"
  | APrim (PNum _) | APrim PNegZero | APrim PNaN => "number"
  | APrim (PStr _) => "string"
  | AObj _ => "object"
  | AFun _ => "function"
  end.

(** [a === null] *)
Definition is_null (a : any) : bool :=
  match a with APrim PNull => true | _ => false end.

(** [Object.is] on property values and on arbitrary values: SameValue. *)
Definition Object_is_value (v w : value) : bool := bool_decide (v = w).

Definition Object_is (a b : any) : bool :=
  match a, b with
  | APrim p, APrim q => bool_decide (p = q)
  | AObj o1, AObj o2 => bool_decide (addr o1 = addr o2)
  | AFun r1, AFun r2 => bool_decide (r1 = r2)
  | _, _ => false
  end.

(** [Object.keys(o)]: the own enumerable keys.  They come in the order of
    the map, not in insertion order; the code only takes their number and
    tests every one of them. *)
Definition Object_keys (o : object) : list string := (map_to_list (own o)).*1.

(** [Object.prototype.hasOwnProperty.call(o, k)] and the read [o[k]] of an
    own property: both see the properties that are not enumerable too.
    (The code reads [a[k]] for own keys of [a] and [b[k]] after the
    [hasOwnProperty] test only, so no read reaches a prototype.) *)
Definition hasOwnProperty (o : object) (k : string) : bool :=
  bool_decide (is_Some ((own o ∪ hidden o) !! k)).

Definition get (o : object) (k : string) : value :=
  default (VPrim PUndefined) ((own o ∪ hidden o) !! k).

(** The object behind a value that passed the [typeof x === "object"] and
    [x !== null] tests. *)
Definition object_of (a : any) : object :=
  match a with AObj o => o | _ => mkObject 0 ∅ end.

(** ** [shallowEqual] (core.ts) *)

Definition shallowEqual (a b : any) : bool :=
  if Object_is a b then true
  else if negb (String.eqb (typeof a) "object") || is_null a
          || negb (String.eqb (typeof b) "object") || is_null b
  then false
  else
    let keysA := Object_keys (object_of a) in
    let keysB := Object_keys (object_of b) in
    if negb (Nat.eqb (length keysA) (length keysB)) then false
    else
      forallb
        (fun k =>
           negb (negb (hasOwnProperty (object_of b) k)
                 || negb (Object_is_value (get (object_of a) k)
                                          (get (object_of b) k))))
        keysA.

(** ** Object spread

    [{ ...x, ...y }] creates an object and copies the own enumerable
    properties of [x], then those of [y], each with an assignment. *)
Definition copyDataProperties (target source : props) : props :=
  map_fold (fun k v acc => <[k := v]> acc) target source.

Definition spread1 (x : props) : props := copyDataProperties ∅ x.

Definition spread2 (x y : props) : props :=
  copyDataProperties (copyDataProperties ∅ x) y.

(** ** Completions, updaters, listeners *)

(** A thrown value. *)
Record exn := Error { message : string }.

#[global] Instance exn_eq_dec : EqDecision exn.
Proof. solve_decision. Defined.

Inductive completion (A : Type) :=
  | Normal (a : A)
  | Throw (x : exn).
Arguments Normal {A} a.
Arguments Throw {A} x.

(** [StateUpdater<T>]: a function from the state to a partial state; the
    call may throw. *)
Definition StateUpdater := object -> completion props.

(** The argument of [setState]: [StateUpdater<T> | Partial<T>]. *)
Inductive updater :=
  | UFun (f : StateUpdater)
  | UPatch (p : props).

(** A listener [() => void]: the identity of the function and what a call
    does when [getState()] returns the given object. *)
Record listener := mkListener { lid : ref; run : object -> completion unit }.

(** ** The state the code runs on *)

(** Closure variables of one [createStoreAPI] call. *)
Record cell := mkCell { state : object; listeners : list listener }.

(** Module-level variables and the ambient runtime.  [calls] records the
    listener invocations in the order they happen; [console] the
    [console.error] calls. *)
Record env := mkEnv {
  nextAddr : ref;
  storeRegistry : gmap string nat;
  storeIdCounter : nat;
  console : list (string * exn);
  calls : list ref
}.

Definition machine : Type := cell * env.

Definition M (A : Type) : Type := machine -> completion A * machine.

#[global] Instance M_ret : MRet M := fun A a m => (Normal a, m).

#[global] Instance M_bind : MBind M := fun A B f k m =>
  match k m with
  | (Normal a, m') => f a m'
  | (Throw x, m') => (Throw x, m')
  end.

Definition throw {A} (x : exn) : M A := fun m => (Throw x, m).

(** [try { body } catch (error) { handler(error) }] *)
Definition tryCatch {A} (body : M A) (handler : exn -> M A) : M A := fun m =>
  match body m with
  | (Normal a, m') => (Normal a, m')
  | (Throw x, m') => handler x m'
  end.

(** The completion of a call that does not touch the store. *)
Definition liftC {A} (c : completion A) : M A := fun m => (c, m).

Definition readState : M object := fun m => (Normal (state m.1), m).

Definition writeState (o : object) : M unit := fun m =>
  (Normal tt, (mkCell o (listeners m.1), m.2)).

Definition readListeners : M (list listener) := fun m =>
  (Normal (listeners m.1), m).

Definition modifyListeners (f : list listener -> list listener) : M unit :=
  fun m => (Normal tt, (mkCell (state m.1) (f (listeners m.1)), m.2)).

Definition env_alloc (e : env) : env :=
  mkEnv (S (nextAddr e)) (storeRegistry e) (storeIdCounter e) (console e) (calls e).

Definition env_log (entries : list (string * exn)) (e : env) : env :=
  mkEnv (nextAddr e) (storeRegistry e) (storeIdCounter e)
        (console e ++ entries) (calls e).

Definition env_called (ids : list ref) (e : env) : env :=
  mkEnv (nextAddr e) (storeRegistry e) (storeIdCounter e)
        (console e) (calls e ++ ids).

Definition env_unregister (storeId : string) (e : env) : env :=
  mkEnv (nextAddr e) (delete storeId (storeRegistry e)) (storeIdCounter e)
        (console e) (calls e).

(** The address of a newly created object. *)
Definition allocate : M ref := fun m =>
  (Normal (nextAddr m.2), (m.1, env_alloc m.2)).

(** [console.error(msg, error)] *)
Definition console_error (msg : string) (error : exn) : M unit := fun m =>
  (Normal tt, (m.1, env_log [(msg, error)] m.2)).

(** [listener()] *)
Definition call (l : listener) : M unit := fun m =>
  (run l (state m.1), (m.1, env_called [lid l] m.2)).

(** [storeRegistry.delete(storeId)] *)
Definition registry_delete (storeId : string) : M unit := fun m =>
  (Normal tt, (m.1, env_unregister storeId m.2)).

(** [xs.forEach(f)]: stops at the first call that throws. *)
Fixpoint forEach {A} (xs : list A) (f : A -> M unit) : M unit :=
  match xs with
  | [] => mret tt
  | x :: xs' => f x ;; forEach xs' f
  end.

(** ** [Set<() => void>]: insertion-ordered, unique by identity *)

Definition Set_has (ls : list listener) (l : listener) : bool :=
  existsb (fun x => bool_decide (lid x = lid l)) ls.

Definition Set_add (l : listener) (ls : list listener) : list listener :=
  if Set_has ls l then ls else ls ++ [l].

Definition Set_delete (l : listener) (ls : list listener) : list listener :=
  filter (fun x => lid x ≠ lid l) ls.

Definition Set_clear (ls : list listener) : list listener := [].

(** ** The closures of [createStoreAPI] (core.ts) *)

Definition getState : M object := readState.

Definition listener_error_msg : string := "[ServerSync] Error in state listener:".

(** [typeof updater === "function" ? updater(state) : updater] *)
Definition patch_of (u : updater) (st : object) : completion props :=
  match u with
  | UFun f => f st
  | UPatch p => Normal p
  end.

Definition setState (u : updater) : M unit :=
  st ← readState;
  a ← allocate;
  patch ← liftC (patch_of u st);
  let nextState := mkObject a (spread2 (own st) patch) in
  if negb (shallowEqual (AObj st) (AObj nextState)) then
    writeState nextState;;
    ls ← readListeners;
    forEach ls (fun l =>
      tryCatch (call l) (fun error => console_error listener_error_msg error))
  else mret tt.

Definition subscribe (l : listener) : M (M unit) :=
  modifyListeners (Set_add l);;
  mret (modifyListeners (Set_delete l)).

Definition getSnapshot : M object := readState.

Definition destroy (storeId : string) : M unit :=
  modifyListeners Set_clear;;
  registry_delete storeId.

(** ** Listeners that unsubscribe while they are notified

    [listeners.forEach] runs over the live [Set]: an entry deleted before
    its turn is not visited.  What the listeners delete is given by
    [unsubscribing]: for the identity of a listener, the identities of the
    listeners whose unsubscribe function it calls when it is notified,
    before it returns or throws. *)





(** ** [StoreAPI], [Middleware], [StoreOptions] (types/index.ts) *)

Record StoreAPI := mkStoreAPI {
  api_getState : M object;
  api_setState : updater -> M unit;
  api_subscribe : listener -> M (M unit);
  api_getSnapshot : M object;
  api_getServerSnapshot : M object;
  api_destroy : M unit
}.

Definition writer : Type := updater -> M unit.

Definition Middleware : Type := StoreAPI -> writer -> writer.

Record SsrOptions := mkSsr { ssr_initialState : option props }.

Record StoreOptions := mkOptions {
  middleware : option (list Middleware);
  devtools : option bool;
  name : option string;
  ssr : option SsrOptions
}.

(** [options.ssr?.initialState] *)
Definition ssr_override (options : StoreOptions) : option props :=
  ssr options ≫= ssr_initialState.

Definition getServerSnapshot (initialState : object) (options : StoreOptions)
  : M object :=
  match ssr_override options with
  | Some override =>
      a ← allocate;
      mret (mkObject a (spread2 (own initialState) override))
  | None => readState
  end.

(** [arr.reduceRight(callback, initialValue)]: the index runs from
    [arr.length - 1] down to [0]. *)
Fixpoint reduceRight_from {A B} (callback : B -> A -> B) (arr : list A)
    (k : nat) (acc : B) : B :=
  match k with
  | 0 => acc
  | S k' =>
      match arr !! k' with
      | Some x => reduceRight_from callback arr k' (callback acc x)
      | None => reduceRight_from callback arr k' acc
      end
  end.

Definition reduceRight {A B} (callback : B -> A -> B) (initialValue : B)
    (arr : list A) : B :=
  reduceRight_from callback arr (length arr) initialValue.

(** [`store_${n}`] *)
Definition store_id (n : nat) : string := "store_" +:+ pretty n.

(** [options.name || storeId]: the empty string is falsy. *)
Definition store_name (options : StoreOptions) (storeId : string) : string :=
  match name options with
  | Some "" | None => storeId
  | Some s => s
  end.

(** [options.devtools !== false] *)
Definition devtools_enabled (options : StoreOptions) : bool :=
  match devtools options with Some false => false | _ => true end.

(** The object literal assigned to [api], before the middleware is
    applied. *)
Definition core_api (storeId : string) (initialState : object)
    (options : StoreOptions) : StoreAPI :=
  {| api_getState := getState;
     api_setState := setState;
     api_subscribe := subscribe;
     api_getSnapshot := getSnapshot;
     api_getServerSnapshot := getServerSnapshot initialState options;
     api_destroy := destroy storeId |}.

Definition with_setState (w : writer) (api : StoreAPI) : StoreAPI :=
  {| api_getState := api_getState api;
     api_setState := w;
     api_subscribe := api_subscribe api;
     api_getSnapshot := api_getSnapshot api;
     api_getServerSnapshot := api_getServerSnapshot api;
     api_destroy := api_destroy api |}.

(** The block under [// Apply middleware].  Each middleware is applied to
    the [api] object as it is at that point, whose [setState] is the
    original one.  In the code the chain then replaces [api.setState] in
    that same object, so a middleware that keeps [api] and calls
    [api.setState] later reaches the chain; such a middleware is outside
    this model, which hands over a record that does not change. *)
Definition applyMiddleware (mws : list Middleware) (api : StoreAPI) : StoreAPI :=
  if Nat.ltb 0 (length mws) then
    let originalSetState := api_setState api in
    let middlewareChain :=
      reduceRight (fun next mw => mw api next) originalSetState mws in
    with_setState middlewareChain api
  else api.

(** [createStoreAPI(initialState, options)]: the returned [api], the
    closure variables and the new module state.  The registry maps the
    store id to the number of the store, which stands for its [api]
    object; the alias [window.__SERVERSYNC_STORES__] of the registry is
    not modelled. *)
Definition createStoreAPI (initialState : object) (options : StoreOptions)
    (e : env) : StoreAPI * machine :=
  let n := S (storeIdCounter e) in
  let storeId := store_id n in
  let storeName := store_name options storeId in
  let state0 := mkObject (nextAddr e) (spread1 (own initialState)) in
  let api := applyMiddleware (default [] (middleware options))
                             (core_api storeId initialState options) in
  let registry :=
    if devtools_enabled options then <[storeId := n]> (storeRegistry e)
    else storeRegistry e in
  (api, (mkCell state0 [],
         mkEnv (S (nextAddr e)) registry n (console e) (calls e))).

(** ** createStore.ts *)

(** An action [(...args) => StateUpdater<T>]; the call may throw. *)
Definition action : Type := list any -> completion updater.

(** An entry of a store definition: a state value, or a function. *)
Inductive entry :=
  | EValue (v : value)
  | EAction (a : action).

(** The loops of [parseStoreDefinition], [bindActionsToStore] and
    [bindActions] fill an object with [obj[key] = value].  That is an
    insertion for every key but [__proto__], for which the assignment
    creates no own property: a definition with an own entry under that key
    is outside this model, and the statements about these functions leave
    the key out. *)
Definition parseStoreDefinition (definition : gmap string entry)
  : props * gmap string action :=
  map_fold (fun key value acc =>
              match value with
              | EAction a => (acc.1, <[key := a]> acc.2)
              | EValue v => (<[key := v]> acc.1, acc.2)
              end)
           (∅, ∅) definition.

(** [`[ServerSync] Error in action "${key}":`] *)
Definition action_error_msg (key : string) : string :=
  "[ServerSync] Error in action "
    +:+ String "034"%char key +:+ String "034"%char ":".

Definition boundAction (store : StoreAPI) (key : string) (act : action)
  : list any -> M unit :=
  fun args =>
    tryCatch
      (updater ← liftC (act args);
       api_setState store updater)
      (fun error =>
         console_error (action_error_msg key) error;;
         throw error).

Definition bindActionsToStore (store : StoreAPI) (actions : gmap string action)
  : gmap string (list any -> M unit) :=
  map_fold (fun key act boundActions =>
              <[key := boundAction store key act]> boundActions)
           ∅ actions.

(** [bindActions] of core.ts, used by the [createStore] of that file (the
    package exports the [createStore] of createStore.ts instead): the same
    binding without the [try]/[catch]. *)
Definition bindActions (store : StoreAPI) (actions : gmap string action)
  : gmap string (list any -> M unit) :=
  map_fold (fun key act boundActions =>
              <[key := fun args => updater ← liftC (act args);
                                   api_setState store updater]> boundActions)
           ∅ actions.

(** [createStore(definition, options)].  The React hook made by
    [createStoreHook] and the packaging of the result with [Object.assign]
    are left out: the result is the store together with its bound
    actions. *)
Definition createStore (definition : gmap string entry) (options : StoreOptions)
    (e : env) : (StoreAPI * gmap string (list any -> M unit)) * machine :=
  let parsed := parseStoreDefinition definition in
  let initialState := mkObject (nextAddr e) parsed.1 in
  let created := createStoreAPI initialState options (env_alloc e) in
  let boundActions := bindActionsToStore created.1 parsed.2 in
  ((created.1, boundActions), created.2).

(** ** Running several operations *)

(** What remains of a call after its completion is dropped (the caller
    catches). *)
Definition exec {A} (op : M A) (m : machine) : machine := (op m).2.

Definition subscribe_all (ls : list listener) (m : machine) : machine :=
  foldl (fun m l => exec (subscribe l) m) m ls.

(** [api.setState(u)] for each [u], on the store [api]. *)
Definition api_setState_all (api : StoreAPI) (us : list updater) (m : machine)
  : machine :=
  foldl (fun m u => exec (api_setState api u) m) m us.

(** ** Vocabulary of the statements *)

(** One iteration of the loop of [shallowEqual]: [b] has the key and the
    values are the same. *)
Definition same_at (a b : object) (k : string) : Prop :=
  is_Some ((own b ∪ hidden b) !! k) /\ get a k = get b k.

(** Both tests of [shallowEqual] on two objects that are not the same
    reference. *)
Definition same_props (a b : object) : Prop :=
  size (own a) = size (own b) /\
  forall k, is_Some (own a !! k) -> same_at a b k.

(** [a] and [b] are the same primitive value or the same reference. *)
Definition identical (a b : any) : Prop :=
  match a, b with
  | APrim p, APrim q => p = q
  | AObj o1, AObj o2 => addr o1 = addr o2
  | AFun r1, AFun r2 => r1 = r2
  | _, _ => False
  end.

(** The patch gives some key a value the state does not have there. *)
Definition changes (st patch : props) : Prop :=
  exists k v, patch !! k = Some v /\ st !! k <> Some v.

(** The [console.error] calls of one fan-out over [ls]. *)
Definition listener_errors (ls : list listener) (st : object)
  : list (string * exn) :=
  flat_map (fun l => match run l st with
                     | Throw x => [(listener_error_msg, x)]
                     | Normal _ => []
                     end) ls.

(** Objects are created at fresh addresses: the current state was created
    before the next allocation. *)
Definition store_wf (m : machine) : Prop := addr (state m.1) < nextAddr m.2.

(** The [listeners.forEach(...)] statement of [setState]. *)
Definition fanout (ls : list listener) : M unit :=
  forEach ls (fun l =>
    tryCatch (call l) (fun error => console_error listener_error_msg error)).

(** The composition the middleware pipeline is specified to be: the first
    middleware is outermost, the last one wraps the raw write. *)
Fixpoint compose_right_to_left (api : StoreAPI) (raw : writer)
    (mws : list Middleware) : writer :=
  match mws with
  | [] => raw
  | mw :: rest => mw api (compose_right_to_left api raw rest)
  end.

(** The operations a caller may run on a store, for statements about what
    happens after [destroy]. *)
Inductive op :=
  | OpSetState (u : updater)
  | OpSubscribe (l : listener)
  | OpUnsubscribe (l : listener)
  | OpGetServerSnapshot
  | OpDestroy.

Definition run_op (storeId : string) (initialState : object)
    (options : StoreOptions) (o : op) (m : machine) : machine :=
  match o with
  | OpSetState u => exec (setState u) m
  | OpSubscribe l => exec (subscribe l) m
  | OpUnsubscribe l =>
      (* the function returned by [subscribe(l)], called at this point *)
      exec (modifyListeners (Set_delete l)) m
  | OpGetServerSnapshot => exec (getServerSnapshot initialState options) m
  | OpDestroy => exec (destroy storeId) m
  end.

Definition run_ops (storeId : string) (initialState : object)
    (options : StoreOptions) (ops : list op) (m : machine) : machine :=
  foldl (fun m o => run_op storeId initialState options o m) m ops.

Definition subscribed_by (o : op) : list ref :=
  match o with OpSubscribe l => [lid l] | _ => [] end.

Definition subscribed (ops : list op) : list ref := flat_map subscribed_by ops.

(** ** Concrete stores for the scenarios *)

Definition count (n : Z) : props := {[ "count" := VPrim (PNum n) ]}.

(** [s => ({ count: s.count + 1 })], for a state whose [count] is an
    integer or is missing (then the sum is [NaN]). *)
Definition increment : updater :=
  UFun (fun s => match own s !! "count" with
                 | Some (VPrim (PNum n)) => Normal (count (n + 1))
                 | _ => Normal {[ "count" := VPrim PNaN ]}
                 end).

Definition env0 : env := mkEnv 0 ∅ 0 [] [].

Definition no_options : StoreOptions := mkOptions None None None None.

Definition ssr_options (override : props) : StoreOptions :=
  mkOptions None None None (Some (mkSsr (Some override))).

(** [createStoreAPI({ count: 0 })] *)
Definition counter0 : machine :=
  (createStoreAPI (mkObject 0 (count 0)) no_options (env_alloc env0)).2.

Definition quiet (id : ref) : listener := mkListener id (fun _ => Normal tt).


Definition failing (id : ref) (msg : string) : listener :=
  mkListener id (fun _ => Throw (Error msg)).

(** A middleware that writes its tag to the console, then forwards. *)
Definition tagging (tag : string) : Middleware :=
  fun api next u => console_error tag (Error "tag");; next u.

(** The definition of the action-error test of createStore.test.ts, with an
    action that throws when called, and one whose updater throws. *)
Definition error_definition : gmap string entry :=
  {[ "count" := EValue (VPrim (PNum 0));
     "increment" := EAction (fun _ => Normal increment);
     "failingAction" := EAction (fun _ => Throw (Error "Action error"));
     "errorAction" :=
       EAction (fun _ => Normal (UFun (fun _ => Throw (Error "Action error")))) ]}.

(** ** Vocabulary of the further properties *)

(** [setState(p)] for each object patch [p] of a list, in order. *)
Definition setState_patches (ps : list props) (m : machine) : machine :=
  foldl (fun m p => exec (setState (UPatch p)) m) m ps.

(** The value a key ends with: that of the last patch that has the key,
    else the one it started with. *)
Definition last_write (k : string) (start : option value) (ps : list props)
  : option value :=
  foldl (fun acc p => match p !! k with Some v => Some v | None => acc end)
        start ps.

(** Every registry entry was written by [createStoreAPI]: its key is the
    id made from its number, and the number is one the counter has
    passed. *)
Definition registry_wf (e : env) : Prop :=
  forall k n, storeRegistry e !! k = Some n ->
              k = store_id n /\ n <= storeIdCounter e.

(** ** The [createStore] of core.ts

    It returns [{ ...store, ...boundActions }]: an object whose members
    are the methods of the store and the bound actions. *)
Module core_ts.

Inductive member :=
  | MRead (f : M object)
  | MWrite (w : writer)
  | MSubscribe (s : listener -> M (M unit))
  | MDestroy (d : M unit)
  | MAction (f : list any -> M unit).

(** The own properties of the [api] object. *)
Definition api_members (api : StoreAPI) : gmap string member :=
  {[ "getState" := MRead (api_getState api);
     "setState" := MWrite (api_setState api);
     "subscribe" := MSubscribe (api_subscribe api);
     "getSnapshot" := MRead (api_getSnapshot api);
     "getServerSnapshot" := MRead (api_getServerSnapshot api);
     "destroy" := MDestroy (api_destroy api) ]}.

(** [{ ...x, ...y }] on member objects. *)
Definition spread_members (x y : gmap string member) : gmap string member :=
  map_fold (fun k v acc => <[k := v]> acc)
           (map_fold (fun k v acc => <[k := v]> acc) ∅ x) y.

Definition createStore (definition : gmap string entry) (options : StoreOptions)
    (e : env) : gmap string member * machine :=
  let parsed := parseStoreDefinition definition in
  let initialState := mkObject (nextAddr e) parsed.1 in
  let created := createStoreAPI initialState options (env_alloc e) in
  let boundActions := bindActions created.1 parsed.2 in
  (spread_members (api_members created.1) (MAction <$> boundActions),
   created.2).

End core_ts.

(** * Properties *)

(** ** Object spread is a left-biased union *)

Lemma copyDataProperties_union (target source : props) :
  copyDataProperties target source = source ∪ target.
Proof.
  unfold copyDataProperties.
  apply (map_fold_weak_ind (fun r (m : props) => r = m ∪ target)).
  - by rewrite (left_id_L ∅ (∪)).
  - intros k v m r _ ->. by rewrite insert_union_l.
Qed.

Lemma spread1_id (x : props) : spread1 x = x.
Proof. unfold spread1. by rewrite copyDataProperties_union, (right_id_L ∅ (∪)). Qed.

Lemma spread2_union (x y : props) : spread2 x y = y ∪ x.
Proof.
  unfold spread2. by rewrite !copyDataProperties_union, (right_id_L ∅ (∪)).
Qed.

Lemma spread2_lookup_patch (x y : props) k v :
  y !! k = Some v -> spread2 x y !! k = Some v.
Proof. intros H. rewrite spread2_union. by apply lookup_union_Some_l. Qed.

Lemma spread2_lookup_base (x y : props) k :
  y !! k = None -> spread2 x y !! k = x !! k.
Proof. intros H. rewrite spread2_union. by apply lookup_union_r. Qed.

(** ** The comparison loop of [shallowEqual] *)

Lemma Object_keys_length (o : object) : length (Object_keys o) = size (own o).
Proof. unfold Object_keys. by rewrite length_fmap, length_map_to_list. Qed.

Lemma elem_of_Object_keys (o : object) k :
  k ∈ Object_keys o <-> is_Some (own o !! k).
Proof.
  unfold Object_keys. rewrite list_elem_of_fmap. split.
  - intros [[k' v] [-> H]]. apply elem_of_map_to_list in H. by exists v.
  - intros [v H]. exists (k, v). split; [done|]. by apply elem_of_map_to_list.
Qed.

Lemma get_own (o : object) k v : own o !! k = Some v -> get o k = v.
Proof. intros H. unfold get. by rewrite (lookup_union_Some_l _ _ _ _ H). Qed.

Lemma loop_body_spec (a b : object) k :
  negb (negb (hasOwnProperty b k)
        || negb (Object_is_value (get a k) (get b k))) = true
  <-> same_at a b k.
Proof.
  unfold hasOwnProperty, Object_is_value, same_at.
  rewrite negb_true_iff, orb_false_iff, !negb_false_iff, !bool_decide_eq_true.
  done.
Qed.

Lemma loop_spec (a b : object) :
  forallb (fun k => negb (negb (hasOwnProperty b k)
                          || negb (Object_is_value (get a k) (get b k))))
          (Object_keys a) = true
  <-> forall k, is_Some (own a !! k) -> same_at a b k.
Proof.
  rewrite forallb_forall. split.
  - intros H k Hk. apply loop_body_spec, H, list_elem_of_In.
    by apply elem_of_Object_keys.
  - intros H k Hk. apply loop_body_spec, H.
    by apply elem_of_Object_keys, list_elem_of_In.
Qed.

(** The loop in terms of lookups: every own enumerable property of [a] is
    an own property of [b], enumerable or not, with the same value. *)
Lemma same_props_lookup (a b : object) :
  same_props a b
  <-> size (own a) = size (own b) /\
      forall k v, own a !! k = Some v -> (own b ∪ hidden b) !! k = Some v.
Proof.
  unfold same_props, same_at. split; intros [Hsize Hkeys]; (split; [done|]).
  - intros k v Hk. destruct (Hkeys k) as [[w Hw] Hget]; [by exists v|].
    rewrite (get_own a k v Hk) in Hget. unfold get in Hget.
    rewrite Hw in Hget. simpl in Hget. by subst.
  - intros k [v Hk]. pose proof (Hkeys k v Hk) as Hb. split; [by exists v|].
    rewrite (get_own a k v Hk). unfold get. by rewrite Hb.
Qed.

(** When every own property of [b] is enumerable the two tests say that
    the properties are the same. *)
Lemma same_props_eq (a b : object) :
  hidden b = ∅ -> same_props a b <-> own a = own b.
Proof.
  intros Hplain. rewrite same_props_lookup, Hplain, (right_id_L ∅ (∪)). split.
  - intros [Hsize Hkeys]. apply map_subseteq_size_eq; [|lia].
    by apply map_subseteq_spec.
  - intros ->. by split.
Qed.

Lemma shallowEqual_objects (o1 o2 : object) :
  shallowEqual (AObj o1) (AObj o2) = true
  <-> addr o1 = addr o2 \/ same_props o1 o2.
Proof.
  unfold shallowEqual, same_props. simpl.
  case_bool_decide as Haddr; [naive_solver|].
  rewrite !Object_keys_length.
  destruct (Nat.eqb_spec (size (own o1)) (size (own o2))) as [Hs|Hs]; simpl.
  - rewrite loop_spec. split; [intros H; right; done|]. intros [?|[_ ?]]; done.
  - split; [done|]. intros [?|[? _]]; done.
Qed.

Lemma shallowEqual_objects_eq (o1 o2 : object) :
  hidden o2 = ∅ ->
  shallowEqual (AObj o1) (AObj o2) = true
  <-> addr o1 = addr o2 \/ own o1 = own o2.
Proof. intros Hplain. by rewrite shallowEqual_objects, same_props_eq. Qed.

(** Two objects with the same enumerable properties are shallow-equal,
    whatever else the second one owns. *)
Lemma shallowEqual_same_own (o1 o2 : object) :
  own o1 = own o2 -> shallowEqual (AObj o1) (AObj o2) = true.
Proof.
  intros Hown. apply shallowEqual_objects. right. apply same_props_lookup.
  split; [by rewrite Hown|]. intros k v Hk. rewrite Hown in Hk.
  by apply lookup_union_Some_l.
Qed.

(** Values that pass neither the identity test nor the composite test. *)
Lemma shallowEqual_not_objects (a b : any) :
  Object_is a b = false ->
  (forall o1 o2, ~ (a = AObj o1 /\ b = AObj o2)) ->
  shallowEqual a b = false.
Proof.
  intros His Hno. unfold shallowEqual. rewrite His.
  destruct a as [[]|o1|], b as [[]|o2|]; try reflexivity.
  exfalso. by apply (Hno o1 o2).
Qed.

Lemma Object_is_refl (a : any) : Object_is a a = true.
Proof. destruct a; simpl; by apply bool_decide_eq_true. Qed.

Lemma Object_is_identical (a b : any) : Object_is a b = true <-> identical a b.
Proof.
  destruct a, b; simpl; try (by split); apply bool_decide_eq_true.
Qed.

(** C9. [shallowEqual(a, b)] is true exactly when [a] and [b] are the same
    value or reference, or both are objects (not [null], not a primitive,
    not a function) with the same number of own enumerable keys, the keys
    [Object.keys] counts, such that every own enumerable property of [a]
    is an own property of [b] with the same value.  Consequently
    [shallowEqual(s, s)] is true for every [s]. *)
Theorem shallowEqual_spec :
  (forall a b : any,
     shallowEqual a b = true <->
     identical a b \/
     exists oa ob,
       a = AObj oa /\ b = AObj ob /\
       size (own oa) = size (own ob) /\
       forall k v, own oa !! k = Some v ->
                   (own ob ∪ hidden ob) !! k = Some v)
  /\ (forall s : any, shallowEqual s s = true).
Proof.
  split.
  - intros a b. rewrite <- Object_is_identical.
    destruct (Object_is a b) eqn:His.
    { unfold shallowEqual. rewrite His. by split; [left|]. }
    destruct a as [pa|oa|ra], b as [pb|ob|rb];
      try (rewrite shallowEqual_not_objects; [|done|by intros ?? [??]];
           split; [done|]; intros [?|(? & ? & ? & ? & _)]; done).
    rewrite shallowEqual_objects, same_props_lookup.
    simpl in His. apply bool_decide_eq_false in His. split.
    + intros [?|[Hsize Hkeys]]; [done|]. right. by exists oa, ob.
    + intros [?|(? & ? & [= <-] & [= <-] & Hsize & Hkeys)]; [done|by right].
  - intros s. unfold shallowEqual. by rewrite Object_is_refl.
Qed.

(** [null] passes the [typeof] test and is stopped by the [=== null]
    test; an array is equal to the object that has its indices and, as an
    enumerable property, its length, but not the other way round. *)
Example shallowEqual_edge_cases :
  shallowEqual (APrim PNull) (AObj (mkObject 0 ∅)) = false /\
  shallowEqual (AObj (mkObject 0 ∅)) (APrim PNull) = false /\
  shallowEqual (APrim PNull) (APrim PNull) = true /\
  shallowEqual (APrim PNaN) (APrim PNaN) = true /\
  shallowEqual (APrim (PNum 0)) (APrim PNegZero) = false /\
  shallowEqual
    (AObj (mkObject 0 {[ "length" := VPrim (PNum 1) ]}))
    (AObj (mkObjectWith 1 {[ "0" := VPrim (PStr "x") ]}
                          {[ "length" := VPrim (PNum 1) ]})) = true /\
  shallowEqual
    (AObj (mkObjectWith 1 {[ "0" := VPrim (PStr "x") ]}
                          {[ "length" := VPrim (PNum 1) ]}))
    (AObj (mkObject 0 {[ "length" := VPrim (PNum 1) ]})) = false.
Proof. vm_compute. done. Qed.

(** ** One write *)

Lemma env_ext (e : env) n r c l k :
  nextAddr e = n -> storeRegistry e = r -> storeIdCounter e = c ->
  console e = l -> calls e = k -> e = mkEnv n r c l k.
Proof. destruct e; simpl; by intros -> -> -> -> ->. Qed.

(** The fan-out calls every listener in order, logs the thrown errors and
    completes normally. *)
Lemma fanout_spec (ls : list listener) (c : cell) (e : env) :
  fanout ls (c, e) =
  (Normal tt,
   (c, env_log (listener_errors ls (state c)) (env_called (lid <$> ls) e))).
Proof.
  unfold fanout. revert e. induction ls as [|l ls IH]; intros e.
  - simpl. unfold mret, M_ret. do 2 f_equal.
    apply env_ext; simpl; by rewrite ?app_nil_r.
  - cbn [forEach]. unfold mbind, M_bind at 1. unfold tryCatch, call at 1.
    cbn [fst snd state]. destruct (run l (state c)) eqn:Hrun.
    + rewrite IH. do 2 f_equal. unfold listener_errors. cbn [flat_map].
      rewrite Hrun. apply env_ext; simpl; try done.
      by rewrite <- app_assoc.
    + unfold console_error. cbn [fst snd]. rewrite IH. do 2 f_equal.
      unfold listener_errors. cbn [flat_map]. rewrite Hrun.
      apply env_ext; simpl; try done; by rewrite <- app_assoc.
Qed.

(** The three ways a call of [setState] ends. *)
Lemma setState_throws (u : updater) (c : cell) (e : env) x :
  patch_of u (state c) = Throw x ->
  setState u (c, e) = (Throw x, (c, env_alloc e)).
Proof.
  intros H. unfold setState, mbind, M_bind, readState, allocate, liftC.
  cbn [fst snd]. by rewrite H.
Qed.

Lemma setState_equal (u : updater) (c : cell) (e : env) patch :
  patch_of u (state c) = Normal patch ->
  shallowEqual (AObj (state c))
    (AObj (mkObject (nextAddr e) (spread2 (own (state c)) patch))) = true ->
  setState u (c, e) = (Normal tt, (c, env_alloc e)).
Proof.
  intros H Heq. unfold setState, mbind, M_bind, readState, allocate, liftC.
  cbn [fst snd]. by rewrite H, Heq.
Qed.

Lemma setState_differs (u : updater) (c : cell) (e : env) patch :
  patch_of u (state c) = Normal patch ->
  shallowEqual (AObj (state c))
    (AObj (mkObject (nextAddr e) (spread2 (own (state c)) patch))) = false ->
  setState u (c, e) =
  (Normal tt,
   (mkCell (mkObject (nextAddr e) (spread2 (own (state c)) patch)) (listeners c),
    env_log (listener_errors (listeners c)
               (mkObject (nextAddr e) (spread2 (own (state c)) patch)))
            (env_called (lid <$> listeners c) (env_alloc e)))).
Proof.
  intros H Hne. unfold setState, mbind, M_bind, readState, allocate, liftC.
  cbn [fst snd]. rewrite H, Hne. cbn [negb].
  unfold writeState, readListeners. cbn [fst snd listeners].
  apply (fanout_spec (listeners c)).
Qed.

(** ** When the guard of [setState] holds *)

Lemma changes_union (st patch : props) : changes st patch <-> patch ∪ st <> st.
Proof.
  split.
  - intros (k & v & Hp & Hs) Heq. apply Hs. rewrite <- Heq.
    by apply lookup_union_Some_l.
  - intros Hne. destruct (decide (map_Forall (fun k v => st !! k = Some v) patch))
      as [Hall|Hex].
    + exfalso. apply Hne. apply map_eq. intros k.
      destruct (patch !! k) as [v|] eqn:Hk.
      * rewrite (lookup_union_Some_l _ _ _ _ Hk). symmetry. by apply Hall.
      * by rewrite lookup_union_r.
    + apply map_not_Forall in Hex; [|apply _].
      destruct Hex as (k & v & Hk & Hs). by exists k, v.
Qed.

Lemma guard_true_unchanged (st : object) (a : ref) (patch : props) :
  (forall k v, spread2 (own st) patch !! k = Some v -> own st !! k = Some v) ->
  shallowEqual (AObj st) (AObj (mkObject a (spread2 (own st) patch))) = true.
Proof.
  intros H. apply shallowEqual_same_own. simpl.
  apply map_eq. intros k. destruct (spread2 (own st) patch !! k) as [v|] eqn:Hk.
  - by apply H.
  - rewrite spread2_union in Hk. by apply lookup_union_None in Hk as [_ ?].
Qed.

Lemma guard_true_inv (st : object) (a : ref) (patch : props) :
  addr st < a ->
  shallowEqual (AObj st) (AObj (mkObject a (spread2 (own st) patch))) = true ->
  own st = patch ∪ own st.
Proof.
  intros Hlt H. apply shallowEqual_objects_eq in H as [H|H]; [| |done]; simpl in H.
  - lia.
  - by rewrite spread2_union in H.
Qed.

Lemma guard_false_changes (st : object) (a : ref) (patch : props) :
  addr st < a ->
  changes (own st) patch ->
  shallowEqual (AObj st) (AObj (mkObject a (spread2 (own st) patch))) = false.
Proof.
  intros Hlt Hch. apply not_true_is_false. intros H.
  apply guard_true_inv in H; [|done]. apply changes_union in Hch. by apply Hch.
Qed.

Lemma getState_spec (m : machine) : getState m = (Normal (state m.1), m).
Proof. reflexivity. Qed.

Lemma getSnapshot_spec (m : machine) : getSnapshot m = (Normal (state m.1), m).
Proof. reflexivity. Qed.

(** C1. When every own property of the candidate state is an own property
    of the current state with the same value (a key the current state does
    not own counts as a difference, whatever its value), the write is a
    no-op: the change test of [setState] is false, the call returns
    normally, the current state object stays in place, and no listener is
    called and nothing is logged. *)
Theorem setState_noop (u : updater) (m : machine) (patch : props) :
  patch_of u (state m.1) = Normal patch ->
  (forall k v, spread2 (own (state m.1)) patch !! k = Some v ->
               own (state m.1) !! k = Some v) ->
  let nextState := mkObject (nextAddr m.2) (spread2 (own (state m.1)) patch) in
  let result := setState u m in
  negb (shallowEqual (AObj (state m.1)) (AObj nextState)) = false /\
  result.1 = Normal tt /\
  state result.2.1 = state m.1 /\
  listeners result.2.1 = listeners m.1 /\
  calls result.2.2 = calls m.2 /\
  console result.2.2 = console m.2.
Proof.
  intros Hpatch Hsame nextState result. subst nextState result.
  destruct m as [c e]. cbn [fst snd] in *.
  pose proof (guard_true_unchanged (state c) (nextAddr e) patch Hsame) as Hguard.
  rewrite (setState_equal u c e patch Hpatch Hguard), Hguard. done.
Qed.

(** A store holding [{count: 0}] with one subscriber: [setState({count: 0})]
    notifies nobody. *)
Lemma setState_noop_witness :
  calls (setState (UPatch (count 0)) (subscribe_all [quiet 7] counter0)).2.2 = [].
Proof.
  destruct (setState_noop (UPatch (count 0)) (subscribe_all [quiet 7] counter0)
              (count 0)) as (_ & _ & _ & _ & Hcalls & _).
  - reflexivity.
  - intros k v. vm_compute (spread2 _ _). vm_compute (own _). intros H. exact H.
  - exact Hcalls.
Defined.

(** A patch that adds a key is a change even when the value it adds is
    [undefined]: the key counts differ. *)
Example setState_new_key_notifies :
  calls (setState (UPatch {[ "extra" := VPrim PUndefined ]})
                  (subscribe_all [quiet 7] counter0)).2.2 = [7].
Proof. vm_compute. reflexivity. Qed.



(** ** Subscriptions *)

Lemma subscribe_spec (l : listener) (m : machine) :
  exec (subscribe l) m = (mkCell (state m.1) (Set_add l (listeners m.1)), m.2).
Proof. reflexivity. Qed.

Lemma Set_has_false (ls : list listener) (l : listener) :
  lid l ∉ lid <$> ls -> Set_has ls l = false.
Proof.
  intros Hnotin. unfold Set_has. apply not_true_is_false. intros H.
  apply existsb_exists in H as (x & Hx & Hid).
  apply bool_decide_eq_true in Hid. apply Hnotin. rewrite <- Hid.
  apply list_elem_of_fmap. exists x. split; [done|]. by apply list_elem_of_In.
Qed.

Lemma Set_has_true (ls : list listener) (l : listener) :
  lid l ∈ lid <$> ls -> Set_has ls l = true.
Proof.
  intros (x & Hid & Hx)%list_elem_of_fmap. unfold Set_has.
  apply existsb_exists. exists x. split; [by apply list_elem_of_In|].
  by apply bool_decide_eq_true.
Qed.


Lemma createStoreAPI_cell (initialState : object) (options : StoreOptions) (e : env) :
  (createStoreAPI initialState options e).2.1
  = mkCell (mkObject (nextAddr e) (own initialState)) [].
Proof. unfold createStoreAPI. cbn [fst snd]. by rewrite spread1_id. Qed.


Lemma getServerSnapshot_override (initialState : object) (options : StoreOptions)
    (override : props) (m : machine) :
  ssr_override options = Some override ->
  getServerSnapshot initialState options m
  = (Normal (mkObject (nextAddr m.2) (spread2 (own initialState) override)),
     (m.1, env_alloc m.2)).
Proof. intros H. unfold getServerSnapshot. by rewrite H. Qed.

Lemma getServerSnapshot_live (initialState : object) (options : StoreOptions)
    (m : machine) :
  ssr_override options = None ->
  getServerSnapshot initialState options m = (Normal (state m.1), m).
Proof. intros H. unfold getServerSnapshot. by rewrite H. Qed.

Lemma setState_wf (u : updater) (m : machine) :
  store_wf m -> store_wf (exec (setState u) m).
Proof.
  destruct m as [c e]. unfold store_wf, exec. cbn [fst snd]. intros Hwf.
  destruct (patch_of u (state c)) as [patch|x] eqn:Hpatch.
  - destruct (shallowEqual (AObj (state c))
                (AObj (mkObject (nextAddr e) (spread2 (own (state c)) patch))))
      eqn:Hguard.
    + rewrite (setState_equal u c e patch Hpatch Hguard). cbn. lia.
    + rewrite (setState_differs u c e patch Hpatch Hguard). cbn. lia.
  - rewrite (setState_throws u c e x Hpatch). cbn. lia.
Qed.

(** Every operation of the API keeps the state older than the next
    allocation; with [createStoreAPI_wf], every store a program can reach
    satisfies [store_wf]. *)
Lemma run_op_wf (storeId : string) (initialState : object)
    (options : StoreOptions) (o : op) (m : machine) :
  store_wf m -> store_wf (run_op storeId initialState options o m).
Proof.
  intros Hwf. destruct o as [u|l|l| |]; cbn [run_op]; try done.
  - by apply setState_wf.
  - destruct m as [c e]. unfold exec, store_wf in *.
    destruct (ssr_override options) as [override|] eqn:Hov.
    + rewrite (getServerSnapshot_override _ _ _ _ Hov). cbn in *. lia.
    + by rewrite (getServerSnapshot_live _ _ _ Hov).
Qed.

Lemma run_ops_wf (storeId : string) (initialState : object)
    (options : StoreOptions) (ops : list op) (m : machine) :
  store_wf m -> store_wf (run_ops storeId initialState options ops m).
Proof.
  revert m. induction ops as [|o ops IH]; intros m Hwf; [done|].
  apply IH. by apply run_op_wf.
Qed.






(** C4. In the fan-out of a write that changed the state, a listener that
    throws does not make [setState] throw: the call returns normally,
    every subscribed listener has been called, in order, and each thrown
    error has been logged with [console.error]. *)
Theorem listener_errors_are_contained (u : updater) (m : machine) (patch : props) :
  store_wf m ->
  patch_of u (state m.1) = Normal patch ->
  changes (own (state m.1)) patch ->
  let result := setState u m in
  result.1 = Normal tt /\
  calls result.2.2 = calls m.2 ++ (lid <$> listeners m.1) /\
  console result.2.2
    = console m.2 ++ listener_errors (listeners m.1) (state result.2.1) /\
  (forall l x, l ∈ listeners m.1 -> run l (state result.2.1) = Throw x ->
               (listener_error_msg, x) ∈ console result.2.2).
Proof.
  intros Hwf Hpatch Hch result. subst result. destruct m as [c e].
  unfold store_wf in Hwf. cbn [fst snd] in *.
  pose proof (guard_false_changes _ _ _ Hwf Hch) as Hguard.
  rewrite (setState_differs u c e patch Hpatch Hguard).
  cbn [fst snd state calls console env_log env_called env_alloc].
  repeat split.
  intros l x Hl Hrun. apply elem_of_app. right.
  unfold listener_errors. apply list_elem_of_In, in_flat_map.
  exists l. split; [by apply list_elem_of_In|]. rewrite Hrun. by left.
Qed.

(** A listener that throws, subscribed before a well-behaved one. *)
Lemma listener_errors_are_contained_witness :
  let result := setState (UPatch (count 1))
                  (subscribe_all [failing 1 "Listener error"; quiet 2] counter0) in
  result.1 = Normal tt /\ calls result.2.2 = [1; 2] /\
  console result.2.2 = [(listener_error_msg, Error "Listener error")].
Proof.
  destruct (listener_errors_are_contained (UPatch (count 1))
              (subscribe_all [failing 1 "Listener error"; quiet 2] counter0)
              (count 1)) as (Hret & Hcalls & Hlog & _).
  - unfold store_wf. vm_compute. lia.
  - reflexivity.
  - exists "count", (VPrim (PNum 1)). split; [reflexivity|]. vm_compute. discriminate.
  - split; [exact Hret|]. split; [exact Hcalls|exact Hlog].
Defined.

(** ** The server snapshot *)

(** C5. On a store whose options carry an [ssr.initialState] override,
    [getServerSnapshot()] returns the initial state merged with the
    override (override keys win, the other keys are those of the
    [initialState] the store was created with), and returns the same
    properties after any sequence of [setState] calls on the store
    (through its middleware, if any); with no override in the options it
    returns the current state object, the one [getSnapshot()] returns. *)
Theorem getServerSnapshot_frozen (initialState : object) (options : StoreOptions)
    (e : env) (us : list updater) :
  let api := (createStoreAPI initialState options e).1 in
  let m0 := (createStoreAPI initialState options e).2 in
  let m := api_setState_all api us m0 in
  match ssr options with
  | Some (mkSsr (Some override)) =>
      exists o0 o,
        (api_getServerSnapshot api m0).1 = Normal o0 /\
        (api_getServerSnapshot api m).1 = Normal o /\
        own o = own o0 /\
        (forall k v, override !! k = Some v -> own o !! k = Some v) /\
        (forall k, override !! k = None ->
                   own o !! k = own initialState !! k /\
                   own o !! k = own (state m0.1) !! k)
  | Some (mkSsr None) | None =>
      (api_getServerSnapshot api m).1 = Normal (state m.1) /\
      (api_getServerSnapshot api m).1 = (api_getSnapshot api m).1
  end.
Proof.
  intros api m0 m.
  assert (api_getServerSnapshot api = getServerSnapshot initialState options
          /\ api_getSnapshot api = getSnapshot) as [-> ->].
  { subst api. unfold createStoreAPI, applyMiddleware. cbn [fst].
    by destruct (Nat.ltb _ _). }
  assert (own (state m0.1) = own initialState) as Hinit.
  { subst m0. by rewrite createStoreAPI_cell. }
  destruct (ssr options) as [[[override|]]|] eqn:Hssr.
  - assert (ssr_override options = Some override) as Hov.
    { unfold ssr_override. by rewrite Hssr. }
    eexists _, _.
    rewrite !(getServerSnapshot_override _ _ _ _ Hov). cbn [fst].
    split; [done|]. split; [done|]. split; [done|]. split.
    + intros k v Hk. by apply spread2_lookup_patch.
    + intros k Hk. rewrite Hinit. split; by apply spread2_lookup_base.
  - assert (ssr_override options = None) as Hov.
    { unfold ssr_override. by rewrite Hssr. }
    by rewrite (getServerSnapshot_live _ _ _ Hov), getSnapshot_spec.
  - assert (ssr_override options = None) as Hov.
    { unfold ssr_override. by rewrite Hssr. }
    by rewrite (getServerSnapshot_live _ _ _ Hov), getSnapshot_spec.
Qed.

(** [createStoreAPI({count: 0}, {ssr: {initialState: {count: 5}}})], then
    [setState({count: 9})]: the server snapshot still has [count] 5, the
    state has 9. *)
Lemma getServerSnapshot_frozen_witness :
  let created := createStoreAPI (mkObject 0 (count 0)) (ssr_options (count 5))
                                (env_alloc env0) in
  let m := api_setState_all created.1 [UPatch (count 9)] created.2 in
  exists o, (api_getServerSnapshot created.1 m).1 = Normal o /\
            own o !! "count" = Some (VPrim (PNum 5)) /\
            own (state m.1) !! "count" = Some (VPrim (PNum 9)).
Proof.
  pose proof (getServerSnapshot_frozen (mkObject 0 (count 0))
                (ssr_options (count 5)) (env_alloc env0) [UPatch (count 9)])
    as H.
  cbv zeta in H. cbn [ssr ssr_options] in H.
  destruct H as (o0 & o & _ & Ho & _ & Hov & _).
  exists o. split; [exact Ho|]. split; [apply Hov; reflexivity|].
  vm_compute. reflexivity.
Defined.

(** With no [ssr] option the server snapshot is the live state. *)
Example getServerSnapshot_live_scenario :
  let created := createStoreAPI (mkObject 0 (count 0)) no_options
                                (env_alloc env0) in
  let m := api_setState_all created.1 [UPatch (count 9)] created.2 in
  (api_getServerSnapshot created.1 m).1 = Normal (mkObject 2 (count 9)).
Proof. vm_compute. reflexivity. Qed.

(** The scenario of the tests: the override [{count: 5}] on [{count: 0}],
    then [setState({count: 9})]. *)
Example getServerSnapshot_scenario :
  let created := createStoreAPI (mkObject 0 (count 0)) (ssr_options (count 5))
                                (env_alloc env0) in
  let api := created.1 in
  let r1 := api_getSnapshot api created.2 in
  let r2 := api_getServerSnapshot api r1.2 in
  let m3 := exec (api_setState api (UPatch (count 9))) r2.2 in
  let r4 := api_getServerSnapshot api m3 in
  let r5 := api_getSnapshot api r4.2 in
  r1.1 = Normal (mkObject 1 (count 0)) /\
  r2.1 = Normal (mkObject 2 (count 5)) /\
  r4.1 = Normal (mkObject 4 (count 5)) /\
  r5.1 = Normal (mkObject 3 (count 9)).
Proof. vm_compute. done. Qed.

(** ** The middleware chain *)

Lemma reduceRight_from_app {A B} (callback : B -> A -> B) (xs ys : list A)
    (k : nat) (acc : B) :
  k <= length xs ->
  reduceRight_from callback (xs ++ ys) k acc = reduceRight_from callback xs k acc.
Proof.
  revert acc. induction k as [|k IH]; intros acc Hk; [done|].
  cbn [reduceRight_from]. rewrite lookup_app_l by lia.
  destruct (xs !! k); apply IH; lia.
Qed.

Lemma reduceRight_snoc {A B} (callback : B -> A -> B) (init : B)
    (xs : list A) (x : A) :
  reduceRight callback init (xs ++ [x]) = reduceRight callback (callback init x) xs.
Proof.
  unfold reduceRight. rewrite length_app, Nat.add_1_r. cbn [reduceRight_from].
  rewrite lookup_app_r, Nat.sub_diag by lia. cbn [lookup list_lookup].
  by apply reduceRight_from_app.
Qed.

Lemma compose_right_to_left_snoc (api : StoreAPI) (raw : writer)
    (ms : list Middleware) (m : Middleware) :
  compose_right_to_left api raw (ms ++ [m])
  = compose_right_to_left api (m api raw) ms.
Proof. induction ms as [|m' ms IH]; [done|]. simpl. by rewrite IH. Qed.

Lemma reduceRight_compose (api : StoreAPI) (raw : writer) (mws : list Middleware) :
  reduceRight (fun next mw => mw api next) raw mws
  = compose_right_to_left api raw mws.
Proof.
  revert raw. induction mws as [|m ms IH] using rev_ind; intros raw; [done|].
  by rewrite reduceRight_snoc, compose_right_to_left_snoc, IH.
Qed.

(** C6. The [setState] of a created store is the right-to-left composition
    of its middlewares over the raw write: the last middleware receives
    the raw [setState] as [next], every other one receives the writer
    produced by the middleware declared after it, and the writer of the
    first one is the store's [setState]. *)
Theorem middleware_chain (initialState : object) (options : StoreOptions) (e : env) :
  let api := core_api (store_id (S (storeIdCounter e))) initialState options in
  let mws := default [] (middleware options) in
  api_setState (createStoreAPI initialState options e).1
    = compose_right_to_left api setState mws /\
  (forall raw, compose_right_to_left api raw [] = raw) /\
  (forall raw ms last,
     compose_right_to_left api raw (ms ++ [last])
     = compose_right_to_left api (last api raw) ms) /\
  (forall raw first ms,
     compose_right_to_left api raw (first :: ms)
     = first api (compose_right_to_left api raw ms)).
Proof.
  intros api mws. split; [|split; [done|split; [|done]]].
  - unfold createStoreAPI, applyMiddleware. cbn [fst]. fold api. fold mws.
    destruct mws as [|m ms]; [done|].
    cbn [length Nat.ltb Nat.leb with_setState api_setState].
    apply reduceRight_compose.
  - intros. apply compose_right_to_left_snoc.
Qed.

(** Without middleware the store's [setState] is the raw write. *)
Lemma createStoreAPI_no_middleware (initialState : object)
    (options : StoreOptions) (e : env) :
  default [] (middleware options) = [] ->
  api_setState (createStoreAPI initialState options e).1 = setState.
Proof.
  intros H. unfold createStoreAPI, applyMiddleware. cbn [fst]. by rewrite H.
Qed.

(** Two middlewares that tag the console before forwarding: the first one
    declared runs first, the raw write last. *)
Example middleware_chain_scenario :
  let created :=
    createStoreAPI (mkObject 0 (count 0))
      (mkOptions (Some [tagging "first"; tagging "second"]) None None None)
      (env_alloc env0) in
  let m := exec (api_setState created.1 (UPatch (count 1))) created.2 in
  console m.2 = [("first", Error "tag"); ("second", Error "tag")] /\
  state m.1 = mkObject 2 (count 1).
Proof. vm_compute. done. Qed.

(** ** Store definitions and bound actions *)

Lemma parseStoreDefinition_actions (definition : gmap string entry) key :
  (parseStoreDefinition definition).2 !! key
  = match definition !! key with
    | Some (EAction a) => Some a
    | _ => None
    end.
Proof.
  unfold parseStoreDefinition.
  apply (map_fold_weak_ind
           (fun (r : props * gmap string action) (d : gmap string entry) =>
              r.2 !! key = match d !! key with
                           | Some (EAction a) => Some a
                           | _ => None
                           end)).
  - done.
  - intros k x d r Hk IH. destruct (decide (k = key)) as [->|Hne].
    + rewrite lookup_insert_eq. destruct x; cbn [snd].
      * by rewrite IH, Hk.
      * by rewrite lookup_insert_eq.
    + rewrite lookup_insert_ne by done. destruct x; cbn [snd].
      * done.
      * by rewrite lookup_insert_ne.
Qed.

Lemma parseStoreDefinition_state (definition : gmap string entry) key :
  (parseStoreDefinition definition).1 !! key
  = match definition !! key with
    | Some (EValue v) => Some v
    | _ => None
    end.
Proof.
  unfold parseStoreDefinition.
  apply (map_fold_weak_ind
           (fun (r : props * gmap string action) (d : gmap string entry) =>
              r.1 !! key = match d !! key with
                           | Some (EValue v) => Some v
                           | _ => None
                           end)).
  - done.
  - intros k x d r Hk IH. destruct (decide (k = key)) as [->|Hne].
    + rewrite lookup_insert_eq. destruct x; cbn [fst].
      * by rewrite lookup_insert_eq.
      * by rewrite IH, Hk.
    + rewrite lookup_insert_ne by done. destruct x; cbn [fst].
      * by rewrite lookup_insert_ne.
      * done.
Qed.

Lemma bindActionsToStore_lookup (store : StoreAPI) (actions : gmap string action) key :
  bindActionsToStore store actions !! key
  = boundAction store key <$> actions !! key.
Proof.
  unfold bindActionsToStore.
  apply (map_fold_weak_ind
           (fun (r : gmap string (list any -> M unit)) (acts : gmap string action) =>
              r !! key = boundAction store key <$> acts !! key)).
  - done.
  - intros k act acts r Hk IH. destruct (decide (k = key)) as [->|Hne].
    + by rewrite !lookup_insert_eq.
    + by rewrite !lookup_insert_ne.
Qed.

Lemma boundAction_action_throws (store : StoreAPI) key (act : action)
    (args : list any) (x : exn) (m : machine) :
  act args = Throw x ->
  boundAction store key act args m
  = (Throw x, (m.1, env_log [(action_error_msg key, x)] m.2)).
Proof.
  intros H. unfold boundAction, tryCatch, mbind, M_bind, liftC.
  rewrite H. reflexivity.
Qed.

(** An error thrown by the write itself (the updater, or a middleware) is
    logged and re-thrown in the same way. *)
Lemma boundAction_write_throws (store : StoreAPI) key (act : action)
    (args : list any) (u : updater) (x : exn) (m m' : machine) :
  act args = Normal u ->
  api_setState store u m = (Throw x, m') ->
  boundAction store key act args m
  = (Throw x, (m'.1, env_log [(action_error_msg key, x)] m'.2)).
Proof.
  intros H Hset. unfold boundAction, tryCatch, mbind, M_bind, liftC.
  rewrite H, Hset. reflexivity.
Qed.

(** The binding of core.ts lets the error through without logging it. *)
Lemma bindActions_lookup (store : StoreAPI) (actions : gmap string action) key :
  bindActions store actions !! key
  = (fun (act : action) args =>
       updater ← liftC (act args); api_setState store updater)
      <$> actions !! key.
Proof.
  unfold bindActions.
  apply (map_fold_weak_ind
           (fun (r : gmap string (list any -> M unit)) (acts : gmap string action) =>
              r !! key
              = (fun (act : action) args =>
                   updater ← liftC (act args); api_setState store updater)
                  <$> acts !! key)).
  - done.
  - intros k act acts r Hk IH. destruct (decide (k = key)) as [->|Hne].
    + by rewrite !lookup_insert_eq.
    + by rewrite !lookup_insert_ne.
Qed.


(** C7. For an action of a store definition (under a key other than
    [__proto__], which the code never binds), the callable that
    [bindActionsToStore] makes for it logs an error thrown by the action
    function with the message [[ServerSync] Error in action "<key>":],
    where [<key>] is the action's name, and throws the same error to its
    caller; the store is left as it was. *)
Theorem bound_action_rethrows (store : StoreAPI) (definition : gmap string entry)
    (key : string) (act : action) (args : list any) (x : exn) (m : machine) :
  definition !! key = Some (EAction act) ->
  key <> "__proto__" ->
  act args = Throw x ->
  exists bound,
    bindActionsToStore store (parseStoreDefinition definition).2 !! key
      = Some bound /\
    (bound args m).1 = Throw x /\
    console (bound args m).2.2
      = console m.2
        ++ [("[ServerSync] Error in action "
               +:+ String "034"%char (key +:+ String "034"%char ":"), x)] /\
    (bound args m).2.1 = m.1 /\
    calls (bound args m).2.2 = calls m.2.
Proof.
  intros Hdef _ Hthrow. exists (boundAction store key act). split.
  - by rewrite bindActionsToStore_lookup, parseStoreDefinition_actions, Hdef.
  - by rewrite (boundAction_action_throws store key act args x m Hthrow).
Qed.

(** ** After [destroy] *)

Lemma destroy_spec (storeId : string) (m : machine) :
  exec (destroy storeId) m
  = (mkCell (state m.1) [], env_unregister storeId m.2).
Proof. reflexivity. Qed.

(** A call of [setState] calls nobody or every listener, and leaves the
    listener set as it is. *)
Lemma setState_calls (u : updater) (m : machine) :
  listeners (exec (setState u) m).1 = listeners m.1 /\
  exists invoked, calls (exec (setState u) m).2 = calls m.2 ++ invoked /\
                  (invoked = [] \/ invoked = lid <$> listeners m.1).
Proof.
  destruct m as [c e]. unfold exec. cbn [fst snd].
  destruct (patch_of u (state c)) as [patch|x] eqn:Hpatch.
  - destruct (shallowEqual (AObj (state c))
                (AObj (mkObject (nextAddr e) (spread2 (own (state c)) patch))))
      eqn:Hguard.
    + rewrite (setState_equal u c e patch Hpatch Hguard). cbn.
      split; [done|]. exists []. rewrite app_nil_r. by split; [|left].
    + rewrite (setState_differs u c e patch Hpatch Hguard). cbn.
      split; [done|]. exists (lid <$> listeners c). by split; [|right].
  - rewrite (setState_throws u c e x Hpatch). cbn.
    split; [done|]. exists []. rewrite app_nil_r. by split; [|left].
Qed.

Lemma elem_of_Set_add (l l' : listener) (ls : list listener) :
  l' ∈ Set_add l ls -> l' ∈ ls \/ l' = l.
Proof.
  unfold Set_add. destruct (Set_has ls l); [by left|].
  rewrite elem_of_app, list_elem_of_singleton. done.
Qed.

Lemma elem_of_Set_delete (l l' : listener) (ls : list listener) :
  l' ∈ Set_delete l ls -> l' ∈ ls.
Proof. unfold Set_delete. rewrite list_elem_of_filter. by intros [_ ?]. Qed.

Section after_destroy.
Context (storeId : string) (initialState : object) (options : StoreOptions).

(** The operation at hand called nobody. *)
Ltac nobody_called :=
  exists []; rewrite app_nil_r; split; [done|];
  let Hid := fresh in intros ? Hid; by apply elem_of_nil in Hid.

(** One operation only calls listeners that are subscribed when it starts,
    and the listeners subscribed when it ends were subscribed before or by
    this operation. *)
Lemma run_op_step (o : op) (m : machine) (known : list ref) :
  (forall l, l ∈ listeners m.1 -> lid l ∈ known) ->
  let m' := run_op storeId initialState options o m in
  (forall l, l ∈ listeners m'.1 -> lid l ∈ known ++ subscribed_by o) /\
  exists invoked, calls m'.2 = calls m.2 ++ invoked /\
                  forall id, id ∈ invoked -> id ∈ known.
Proof.
  intros Hknown m'. subst m'. destruct o as [u|l|l| |]; cbn [run_op subscribed_by].
  - destruct (setState_calls u m) as (Hls & invoked & Hcalls & Hinv).
    rewrite Hls, Hcalls, app_nil_r. split; [done|].
    exists invoked. split; [done|]. intros id Hid.
    destruct Hinv as [->| ->]; [by apply elem_of_nil in Hid|].
    apply list_elem_of_fmap in Hid as (l & -> & Hl). by apply Hknown.
  - rewrite subscribe_spec. cbn [fst snd listeners]. split.
    + intros l' Hl'. apply elem_of_app.
      apply elem_of_Set_add in Hl' as [Hl'| ->]; [left; by apply Hknown|].
      right. by apply list_elem_of_singleton.
    + nobody_called.
  - unfold exec, modifyListeners. cbn [fst snd listeners]. split.
    + intros l' Hl'%elem_of_Set_delete. rewrite app_nil_r. by apply Hknown.
    + nobody_called.
  - rewrite app_nil_r. unfold exec, getServerSnapshot.
    destruct (ssr_override options); cbn.
    + split; [done|]. nobody_called.
    + split; [done|]. nobody_called.
  - rewrite destroy_spec. cbn [fst snd listeners calls env_unregister]. split.
    + by intros l Hl%elem_of_nil.
    + nobody_called.
Qed.

Lemma subscribed_cons (o : op) (ops : list op) :
  subscribed (o :: ops) = subscribed_by o ++ subscribed ops.
Proof. reflexivity. Qed.

Lemma run_ops_calls (ops : list op) :
  forall (m : machine) (known : list ref),
    (forall l, l ∈ listeners m.1 -> lid l ∈ known) ->
    exists invoked,
      calls (run_ops storeId initialState options ops m).2 = calls m.2 ++ invoked /\
      forall id, id ∈ invoked -> id ∈ known \/ id ∈ subscribed ops.
Proof.
  induction ops as [|o ops IH]; intros m known Hknown.
  - nobody_called.
  - change (run_ops storeId initialState options (o :: ops) m)
      with (run_ops storeId initialState options ops
              (run_op storeId initialState options o m)).
    destruct (run_op_step o m known Hknown)
      as (Hknown' & inv1 & Hcalls1 & Hinv1).
    destruct (IH _ _ Hknown') as (inv2 & Hcalls2 & Hinv2).
    exists (inv1 ++ inv2). rewrite Hcalls2, Hcalls1, app_assoc. split; [done|].
    intros id [Hid|Hid]%elem_of_app; [left; by apply Hinv1|].
    rewrite subscribed_cons, elem_of_app.
    destruct (Hinv2 id Hid) as [[?|?]%elem_of_app|?]; auto.
Qed.

(** C8. After [destroy()], whatever operations follow on the store, the
    listeners called are among those subscribed after the [destroy]: a
    listener registered before it, and not subscribed again, is never
    called by a later [setState]. *)
Theorem destroy_silences_listeners (m : machine) (ops : list op) :
  let m1 := exec (destroy storeId) m in
  let m2 := run_ops storeId initialState options ops m1 in
  exists invoked,
    calls m2.2 = calls m.2 ++ invoked /\
    (forall id, id ∈ invoked -> id ∈ subscribed ops) /\
    (forall l, l ∈ listeners m.1 -> lid l ∉ subscribed ops -> lid l ∉ invoked).
Proof.
  intros m1 m2. subst m1 m2.
  destruct (run_ops_calls ops (exec (destroy storeId) m) [])
    as (invoked & Hcalls & Hinv).
  { rewrite destroy_spec. by intros l Hl%elem_of_nil. }
  rewrite destroy_spec in Hcalls. cbn [snd calls env_unregister] in Hcalls.
  exists invoked. split; [by rewrite <- destroy_spec in Hcalls|].
  assert (forall id, id ∈ invoked -> id ∈ subscribed ops) as Hsub.
  { intros id Hid. destruct (Hinv id Hid) as [?%elem_of_nil|?]; done. }
  split; [done|]. intros l _ Hnot Hin. by apply Hnot, Hsub.
Qed.

End after_destroy.

(** [subscribe(L); destroy(); setState({count: 1})]: [L] is not called, and
    the state is written. *)
Example destroy_then_setState_scenario :
  let m := run_ops "store_1" (mkObject 0 (count 0)) no_options
             [OpSubscribe (quiet 3); OpDestroy; OpSetState (UPatch (count 1))]
             counter0 in
  calls m.2 = [] /\ state m.1 = mkObject 2 (count 1) /\ storeRegistry m.2 = ∅.
Proof. vm_compute. done. Qed.

(** C10. [destroy()] clears the listener set and removes the registry
    entry of the store, and nothing else: a later [setState] that changes
    something still replaces the state, [getState()] and [getSnapshot()]
    return the new object, and nobody is notified. *)
Theorem destroy_keeps_write_path (storeId : string) (m : machine)
    (u : updater) (patch : props) :
  store_wf m ->
  patch_of u (state m.1) = Normal patch ->
  changes (own (state m.1)) patch ->
  let m1 := exec (destroy storeId) m in
  let m2 := exec (setState u) m1 in
  let nextState := mkObject (nextAddr m.2) (spread2 (own (state m.1)) patch) in
  (state m1.1 = state m.1 /\ listeners m1.1 = [] /\
   storeRegistry m1.2 = delete storeId (storeRegistry m.2) /\
   nextAddr m1.2 = nextAddr m.2 /\ storeIdCounter m1.2 = storeIdCounter m.2 /\
   console m1.2 = console m.2 /\ calls m1.2 = calls m.2) /\
  (state m2.1 = nextState /\ own nextState <> own (state m.1) /\
   getState m2 = (Normal nextState, m2) /\
   getSnapshot m2 = (Normal nextState, m2) /\
   calls m2.2 = calls m.2 /\ console m2.2 = console m.2).
Proof.
  intros Hwf Hpatch Hch m1 m2 nextState. subst m1 m2 nextState.
  destruct m as [c e]. unfold store_wf in Hwf. cbn [fst snd] in *.
  rewrite getState_spec, getSnapshot_spec, destroy_spec. cbn [fst snd state].
  split; [done|].
  pose proof (guard_false_changes _ _ _ Hwf Hch) as Hguard.
  unfold exec.
  rewrite (setState_differs u (mkCell (state c) []) (env_unregister storeId e)
             patch Hpatch Hguard).
  cbn. rewrite !app_nil_r. repeat split.
  rewrite spread2_union. by apply changes_union.
Qed.

(** [createStoreAPI({count: 0})], a subscriber, [destroy()], then
    [setState({count: 1})]. *)
Lemma destroy_keeps_write_path_witness :
  let m := subscribe_all [quiet 3] counter0 in
  let m2 := exec (setState (UPatch (count 1))) (exec (destroy "store_1") m) in
  getState m2 = (Normal (mkObject 2 (count 1)), m2) /\ calls m2.2 = [].
Proof.
  destruct (destroy_keeps_write_path "store_1" (subscribe_all [quiet 3] counter0)
              (UPatch (count 1)) (count 1))
    as (_ & _ & _ & Hget & _ & Hcalls & _).
  - unfold store_wf. vm_compute. lia.
  - reflexivity.
  - exists "count", (VPrim (PNum 1)). split; [reflexivity|]. vm_compute. discriminate.
  - split; [exact Hget|exact Hcalls].
Defined.

(** The action-error test, with an action that throws when called: the
    console gets [[ServerSync] Error in action "failingAction":] and the
    error. *)
Lemma bound_action_rethrows_witness :
  let store := (createStore error_definition no_options env0).1.1 in
  let m := (createStore error_definition no_options env0).2 in
  exists bound,
    bindActionsToStore store (parseStoreDefinition error_definition).2
      !! "failingAction" = Some bound /\
    (bound [] m).1 = Throw (Error "Action error") /\
    console (bound [] m).2.2
      = [("[ServerSync] Error in action "
            +:+ String "034"%char ("failingAction" +:+ String "034"%char ":"),
          Error "Action error")].
Proof.
  destruct (bound_action_rethrows
              (createStore error_definition no_options env0).1.1
              error_definition "failingAction"
              (fun _ => Throw (Error "Action error")) [] (Error "Action error")
              (createStore error_definition no_options env0).2)
    as (bound & Hbound & Hthrow & Hlog & _).
  - vm_compute. reflexivity.
  - discriminate.
  - reflexivity.
  - exists bound. split; [exact Hbound|]. split; [exact Hthrow|exact Hlog].
Defined.

(** The same message, character by character. *)
Example action_error_msg_text :
  String.list_ascii_of_string (action_error_msg "failingAction")
  = String.list_ascii_of_string "[ServerSync] Error in action "
    ++ ["034"%char] ++ String.list_ascii_of_string "failingAction"
    ++ ["034"%char; ":"%char].
Proof. reflexivity. Qed.

Example createStore_scenarios :
  let created := createStore error_definition no_options env0 in
  let call key (m : machine) :=
    match created.1.2 !! key with
    | Some bound => bound [] m
    | None => (Normal tt, m)
    end in
  let r1 := call "errorAction" created.2 in
  let r2 := call "increment" r1.2 in
  let r3 := call "increment" r2.2 in
  r1.1 = Throw (Error "Action error") /\
  console r1.2.2 = [(action_error_msg "errorAction", Error "Action error")] /\
  r3.1 = Normal tt /\
  own (state r3.2.1) = count 2.
Proof. vm_compute. done. Qed.

(** * Further properties of the store *)

(** ** The listener set *)

Lemma Set_has_spec (ls : list listener) (l : listener) :
  Set_has ls l = true <-> lid l ∈ lid <$> ls.
Proof.
  split; [|apply Set_has_true]. intros H.
  destruct (decide (lid l ∈ lid <$> ls)) as [|Hnot]; [done|].
  apply Set_has_false in Hnot. congruence.
Qed.

Lemma Set_add_has (l : listener) (ls : list listener) :
  Set_has (Set_add l ls) l = true.
Proof.
  unfold Set_add. destruct (Set_has ls l) eqn:Hhas; [done|].
  apply Set_has_true. rewrite fmap_app. apply elem_of_app. right.
  by apply list_elem_of_singleton.
Qed.

Lemma Set_add_idemp (l : listener) (ls : list listener) :
  Set_add l (Set_add l ls) = Set_add l ls.
Proof. unfold Set_add at 1. by rewrite Set_add_has. Qed.

Lemma Set_delete_fresh (l : listener) (ls : list listener) :
  lid l ∉ lid <$> ls -> Set_delete l ls = ls.
Proof.
  unfold Set_delete. induction ls as [|x ls IH]; intros Hnot; [done|].
  rewrite fmap_cons, not_elem_of_cons in Hnot. destruct Hnot as [Hne Hnot].
  rewrite filter_cons_True by done. by rewrite IH.
Qed.

Lemma Set_delete_add (l : listener) (ls : list listener) :
  Set_delete l (Set_add l ls) = Set_delete l ls.
Proof.
  unfold Set_add. destruct (Set_has ls l); [done|].
  unfold Set_delete. rewrite filter_app.
  rewrite (filter_cons_False _ l []) by (intros H; by apply H).
  by rewrite filter_nil, app_nil_r.
Qed.

Lemma Set_delete_not_elem (l : listener) (ls : list listener) :
  lid l ∉ lid <$> Set_delete l ls.
Proof.
  intros (x & Hid & Hx)%list_elem_of_fmap.
  apply list_elem_of_filter in Hx as [Hne _]. by apply Hne.
Qed.

Lemma Set_delete_idemp (l : listener) (ls : list listener) :
  Set_delete l (Set_delete l ls) = Set_delete l ls.
Proof. apply Set_delete_fresh, Set_delete_not_elem. Qed.

Lemma Set_add_NoDup (l : listener) (ls : list listener) :
  NoDup (lid <$> ls) -> NoDup (lid <$> Set_add l ls).
Proof.
  intros Hnd. unfold Set_add. destruct (Set_has ls l) eqn:Hhas; [done|].
  rewrite fmap_app. apply NoDup_app. split; [done|]. split.
  - intros id Hid ->%list_elem_of_singleton.
    apply Set_has_true in Hid. congruence.
  - apply NoDup_singleton.
Qed.

Lemma Set_delete_NoDup (l : listener) (ls : list listener) :
  NoDup (lid <$> ls) -> NoDup (lid <$> Set_delete l ls).
Proof.
  unfold Set_delete. induction ls as [|x ls IH]; intros Hnd; [done|].
  rewrite fmap_cons in Hnd. apply NoDup_cons in Hnd as [Hx Hnd].
  destruct (decide (lid x ≠ lid l)) as [Hne|Heq].
  - rewrite filter_cons_True by done. rewrite fmap_cons. apply NoDup_cons.
    split; [|by apply IH]. intros (y & Hid & Hy)%list_elem_of_fmap.
    apply list_elem_of_filter in Hy as [_ Hy]. apply Hx. rewrite Hid.
    apply list_elem_of_fmap. by exists y.
  - rewrite filter_cons_False by done. by apply IH.
Qed.

Lemma subscribe_result (l : listener) (m : machine) :
  subscribe l m
  = (Normal (modifyListeners (Set_delete l)),
     (mkCell (state m.1) (Set_add l (listeners m.1)), m.2)).
Proof. reflexivity. Qed.

(** X1. Subscribing a listener that is already subscribed changes
    nothing. *)
Theorem subscribe_idempotent (l : listener) (m : machine) :
  exec (subscribe l) (exec (subscribe l) m) = exec (subscribe l) m.
Proof. rewrite !subscribe_spec. cbn [fst snd state listeners]. by rewrite Set_add_idemp. Qed.

Lemma run_op_NoDup (storeId : string) (initialState : object)
    (options : StoreOptions) (o : op) (m : machine) :
  NoDup (lid <$> listeners m.1) ->
  NoDup (lid <$> listeners (run_op storeId initialState options o m).1).
Proof.
  intros Hnd. destruct o as [u|l|l| |]; cbn [run_op].
  - by destruct (setState_calls u m) as [-> _].
  - rewrite subscribe_spec. by apply Set_add_NoDup.
  - by apply Set_delete_NoDup.
  - unfold exec, getServerSnapshot. by destruct (ssr_override options).
  - rewrite destroy_spec. apply NoDup_nil_2.
Qed.

(** X2. Whatever operations run on a created store, its listener set
    never holds two listeners with the same identity. *)
Theorem listeners_stay_unique (storeId : string) (initialState : object)
    (options : StoreOptions) (e : env) (ops : list op) :
  NoDup (lid <$> listeners
           (run_ops storeId initialState options ops
              (createStoreAPI initialState options e).2).1).
Proof.
  assert (forall m, NoDup (lid <$> listeners m.1) ->
            NoDup (lid <$> listeners
                     (run_ops storeId initialState options ops m).1)) as Hinv.
  { induction ops as [|o ops IH]; intros m Hnd; [done|].
    apply IH. by apply run_op_NoDup. }
  apply Hinv. rewrite createStoreAPI_cell. apply NoDup_nil_2.
Qed.

(** X3. After the function returned by [subscribe(l)] has been called, a
    write that changes the state calls the other listeners, in their
    order, and does not call [l]. *)
Theorem unsubscribe_stops_delivery (l : listener) (m : machine)
    (u : updater) (patch : props) :
  store_wf m ->
  patch_of u (state m.1) = Normal patch ->
  changes (own (state m.1)) patch ->
  exists unsubscribe,
    (subscribe l m).1 = Normal unsubscribe /\
    let m1 := exec unsubscribe (subscribe l m).2 in
    let others := filter (fun x => lid x ≠ lid l) (listeners m.1) in
    calls (exec (setState u) m1).2 = calls m.2 ++ (lid <$> others) /\
    lid l ∉ lid <$> others.
Proof.
  intros Hwf Hpatch Hch. destruct m as [c e]. unfold store_wf in Hwf.
  cbn [fst snd] in *. rewrite subscribe_result. eexists. split; [reflexivity|].
  cbn zeta. split; [|apply Set_delete_not_elem].
  unfold exec, modifyListeners. cbn [fst snd state listeners].
  rewrite Set_delete_add.
  pose proof (guard_false_changes _ _ _ Hwf Hch) as Hguard.
  rewrite (setState_differs u (mkCell (state c) (Set_delete l (listeners c))) e
             patch Hpatch Hguard).
  reflexivity.
Qed.

(** The scenario of core.test.ts: subscribe, write, unsubscribe, write. *)
Lemma unsubscribe_stops_delivery_witness :
  exists unsubscribe,
    (subscribe (quiet 5) (subscribe_all [quiet 4] counter0)).1
      = Normal unsubscribe /\
    calls (exec (setState (UPatch (count 1)))
             (exec unsubscribe
                (subscribe (quiet 5) (subscribe_all [quiet 4] counter0)).2)).2
      = [4].
Proof.
  destruct (unsubscribe_stops_delivery (quiet 5) (subscribe_all [quiet 4] counter0)
              (UPatch (count 1)) (count 1)) as (unsub & Hsub & Hcalls & _).
  - unfold store_wf. vm_compute. lia.
  - reflexivity.
  - exists "count", (VPrim (PNum 1)). split; [reflexivity|]. vm_compute. discriminate.
  - exists unsub. split; [exact Hsub|exact Hcalls].
Defined.

(** X4. Subscribing a listener that was not subscribed and then calling
    the returned function leaves the store as it was. *)
Theorem subscribe_unsubscribe_round_trip (l : listener) (m : machine) :
  lid l ∉ lid <$> listeners m.1 ->
  exists unsubscribe,
    (subscribe l m).1 = Normal unsubscribe /\
    exec unsubscribe (subscribe l m).2 = m.
Proof.
  intros Hfresh. rewrite subscribe_result. eexists. split; [reflexivity|].
  destruct m as [[st ls] e]. unfold exec, modifyListeners.
  cbn [fst snd state listeners] in *.
  by rewrite Set_delete_add, Set_delete_fresh.
Qed.

Lemma subscribe_unsubscribe_round_trip_witness :
  exists unsubscribe,
    (subscribe (quiet 5) (subscribe_all [quiet 4] counter0)).1
      = Normal unsubscribe /\
    exec unsubscribe (subscribe (quiet 5) (subscribe_all [quiet 4] counter0)).2
      = subscribe_all [quiet 4] counter0.
Proof.
  apply (subscribe_unsubscribe_round_trip (quiet 5)
           (subscribe_all [quiet 4] counter0)).
  vm_compute. intros H. inversion H as [|? ? ? H']. inversion H'.
Defined.

(** X5. Calling the function returned by [subscribe(l)] a second time, or
    when [l] is no longer subscribed, changes nothing. *)
Theorem unsubscribe_idempotent (l : listener) (m : machine) :
  exists unsubscribe,
    (subscribe l m).1 = Normal unsubscribe /\
    (forall m', exec unsubscribe (exec unsubscribe m') = exec unsubscribe m') /\
    (forall m', lid l ∉ lid <$> listeners m'.1 -> exec unsubscribe m' = m').
Proof.
  rewrite subscribe_result. eexists. split; [reflexivity|]. split.
  - intros m'. unfold exec, modifyListeners. cbn [fst snd state listeners].
    by rewrite Set_delete_idemp.
  - intros [[st ls] e] Hfresh. unfold exec, modifyListeners.
    cbn [fst snd state listeners] in *. by rewrite Set_delete_fresh.
Qed.

(** X6. A listener that unsubscribes and subscribes again is notified
    last: it leaves its place in the order and is appended. *)
Theorem resubscribe_moves_last (l : listener) (m : machine) :
  exists unsubscribe,
    (subscribe l m).1 = Normal unsubscribe /\
    listeners (exec (subscribe l) (exec unsubscribe (subscribe l m).2)).1
    = filter (fun x => lid x ≠ lid l) (listeners m.1) ++ [l].
Proof.
  rewrite subscribe_result. eexists. split; [reflexivity|].
  rewrite subscribe_spec. unfold exec, modifyListeners.
  cbn [fst snd state listeners]. rewrite Set_delete_add.
  unfold Set_add. rewrite Set_has_false; [done|]. apply Set_delete_not_elem.
Qed.

(** ** Writes *)

(** The properties of the state after a call of [setState] that returns. *)
Lemma setState_contents (u : updater) (m : machine) (patch : props) :
  store_wf m ->
  patch_of u (state m.1) = Normal patch ->
  own (state (exec (setState u) m).1) = patch ∪ own (state m.1).
Proof.
  intros Hwf Hpatch. destruct m as [c e]. unfold store_wf, exec in *.
  cbn [fst snd] in *.
  destruct (shallowEqual (AObj (state c))
              (AObj (mkObject (nextAddr e) (spread2 (own (state c)) patch))))
    eqn:Hguard.
  - rewrite (setState_equal u c e patch Hpatch Hguard). cbn [fst snd].
    by apply (guard_true_inv _ _ _ Hwf Hguard).
  - rewrite (setState_differs u c e patch Hpatch Hguard). cbn [fst snd state own].
    apply spread2_union.
Qed.

(** X7. When the updater function throws, [setState] throws the same error
    and the store is untouched: same state object, same listeners, nobody
    called, nothing logged. *)
Theorem setState_updater_throws (f : StateUpdater) (x : exn) (m : machine) :
  f (state m.1) = Throw x ->
  let result := setState (UFun f) m in
  result.1 = Throw x /\
  result.2.1 = m.1 /\
  calls result.2.2 = calls m.2 /\
  console result.2.2 = console m.2 /\
  storeRegistry result.2.2 = storeRegistry m.2.
Proof.
  intros Hf result. subst result. destruct m as [c e].
  by rewrite (setState_throws (UFun f) c e x Hf).
Qed.

Lemma setState_updater_throws_witness :
  let m := subscribe_all [quiet 4] counter0 in
  let result := setState (UFun (fun _ => Throw (Error "Updater error"))) m in
  result.1 = Throw (Error "Updater error") /\ result.2.1 = m.1 /\
  calls result.2.2 = [].
Proof.
  destruct (setState_updater_throws (fun _ => Throw (Error "Updater error"))
              (Error "Updater error") (subscribe_all [quiet 4] counter0))
    as (Hthrow & Hcell & Hcalls & _).
  - reflexivity.
  - split; [exact Hthrow|]. split; [exact Hcell|exact Hcalls].
Defined.

(** X8. Writing the same object patch a second time is a no-op: the state
    object stays, nobody is called, nothing is logged. *)
Theorem setState_patch_idempotent (p : props) (m : machine) :
  store_wf m ->
  let m1 := exec (setState (UPatch p)) m in
  let result := setState (UPatch p) m1 in
  result.1 = Normal tt /\
  result.2.1 = m1.1 /\
  calls result.2.2 = calls m1.2 /\
  console result.2.2 = console m1.2.
Proof.
  intros Hwf m1 result. subst result.
  pose proof (setState_contents (UPatch p) m p Hwf eq_refl) as Hown.
  fold m1 in Hown. destruct m1 as [c1 e1]. cbn [fst snd] in *.
  assert (shallowEqual (AObj (state c1))
            (AObj (mkObject (nextAddr e1) (spread2 (own (state c1)) p))) = true)
    as Hguard.
  { apply guard_true_unchanged. intros k v. rewrite spread2_union, Hown.
    by rewrite (assoc_L (∪)), (idemp_L (∪) p). }
  by rewrite (setState_equal (UPatch p) c1 e1 p eq_refl Hguard).
Qed.

Lemma setState_patch_idempotent_witness :
  let m1 := exec (setState (UPatch (count 1))) (subscribe_all [quiet 4] counter0) in
  calls (setState (UPatch (count 1)) m1).2.2 = [4].
Proof.
  destruct (setState_patch_idempotent (count 1) (subscribe_all [quiet 4] counter0))
    as (_ & _ & Hcalls & _).
  - unfold store_wf. vm_compute. lia.
  - exact Hcalls.
Defined.

Lemma setState_patches_wf (ps : list props) (m : machine) :
  store_wf m -> store_wf (setState_patches ps m).
Proof.
  revert m. induction ps as [|p ps IH]; intros m Hwf; [done|].
  apply IH. by apply setState_wf.
Qed.

Lemma last_write_union (k : string) (st p : props) :
  (p ∪ st) !! k = match p !! k with Some v => Some v | None => st !! k end.
Proof.
  destruct (p !! k) as [v|] eqn:Hk.
  - by apply lookup_union_Some_l.
  - by apply lookup_union_r.
Qed.

(** X9. After a sequence of object patches, every key holds the value of
    the last patch that has it, and the value it started with when no
    patch has it. *)
Theorem setState_patches_last_write (ps : list props) (m : machine) (k : string) :
  store_wf m ->
  own (state (setState_patches ps m).1) !! k
  = last_write k (own (state m.1) !! k) ps.
Proof.
  revert m. induction ps as [|p ps IH]; intros m Hwf; [done|].
  change (setState_patches (p :: ps) m)
    with (setState_patches ps (exec (setState (UPatch p)) m)).
  rewrite IH by (by apply setState_wf).
  rewrite (setState_contents (UPatch p) m p Hwf eq_refl), last_write_union.
  reflexivity.
Qed.

Lemma setState_patches_last_write_witness :
  own (state (setState_patches [count 1; {[ "name" := VPrim (PStr "a") ]}; count 2]
                counter0).1) !! "count"
  = Some (VPrim (PNum 2)).
Proof.
  rewrite (setState_patches_last_write
             [count 1; {[ "name" := VPrim (PStr "a") ]}; count 2] counter0 "count").
  - reflexivity.
  - unfold store_wf. vm_compute. lia.
Defined.

(** ** More on [shallowEqual] *)

Lemma Object_is_sym (a b : any) : Object_is a b = Object_is b a.
Proof.
  destruct a, b; simpl; try done; apply bool_decide_ext; split; congruence.
Qed.

Lemma shallowEqual_true_iff (a b : any) :
  (forall o, b = AObj o -> hidden o = ∅) ->
  shallowEqual a b = true
  <-> Object_is a b = true
      \/ exists o1 o2, a = AObj o1 /\ b = AObj o2 /\ own o1 = own o2.
Proof.
  intros Hplain. destruct (Object_is a b) eqn:His.
  { unfold shallowEqual. rewrite His. by split; [left|]. }
  destruct a as [pa|o1|ra], b as [pb|o2|rb];
    try (rewrite shallowEqual_not_objects; [|done|by intros ?? [??]];
         split; [done|]; intros [?|(? & ? & ? & ? & _)]; done).
  rewrite shallowEqual_objects_eq by (by apply Hplain). simpl in His.
  apply bool_decide_eq_false in His. split.
  - intros [?|Hown]; [done|]. right. by exists o1, o2.
  - intros [?|(? & ? & [= <-] & [= <-] & Hown)]; [done|by right].
Qed.

(** X11. On values whose own properties are all enumerable (object
    literals, spread results, primitives), [shallowEqual] is symmetric.
    It is not on others: see [shallowEqual_edge_cases]. *)
Theorem shallowEqual_sym (a b : any) :
  (forall o, a = AObj o -> hidden o = ∅) ->
  (forall o, b = AObj o -> hidden o = ∅) ->
  shallowEqual a b = shallowEqual b a.
Proof.
  intros Ha Hb. apply eq_true_iff_eq.
  rewrite !shallowEqual_true_iff, (Object_is_sym b a) by done.
  split; (intros [?|(o1 & o2 & -> & -> & Hown)]; [by left|right]);
    by exists o2, o1.
Qed.

Lemma shallowEqual_sym_witness :
  shallowEqual (AObj (mkObject 0 (count 0))) (AObj (mkObject 1 (count 1)))
  = shallowEqual (AObj (mkObject 1 (count 1))) (AObj (mkObject 0 (count 0))).
Proof.
  apply (shallowEqual_sym (AObj (mkObject 0 (count 0)))
           (AObj (mkObject 1 (count 1)))).
  - intros o [= <-]. reflexivity.
  - intros o [= <-]. reflexivity.
Defined.

(** X12. When one of the two arguments is not an object ([null], a
    primitive or a function), [shallowEqual] is [Object.is]: in
    particular [null] is equal to [null] only, and a function to itself
    only. *)
Theorem shallowEqual_non_objects (a b : any) :
  (forall o, a <> AObj o) \/ (forall o, b <> AObj o) ->
  shallowEqual a b = Object_is a b.
Proof.
  intros Hnot. destruct (Object_is a b) eqn:His.
  - unfold shallowEqual. by rewrite His.
  - apply shallowEqual_not_objects; [done|].
    intros o1 o2 [-> ->]. destruct Hnot as [H|H]; by eapply H.
Qed.

(** [shallowEqual(null, {})] is false although [typeof null] is
    ["object"]. *)
Lemma shallowEqual_non_objects_witness :
  shallowEqual (APrim PNull) (AObj (mkObject 0 ∅)) = false.
Proof.
  rewrite (shallowEqual_non_objects (APrim PNull) (AObj (mkObject 0 ∅))).
  - reflexivity.
  - left. intros o. discriminate.
Defined.

(** ** More on the server snapshot *)

(** X13. With an override configured, every call of [getServerSnapshot]
    returns a new object: two consecutive results are not the same
    reference, although they are shallow-equal; the calls leave the state
    and the listeners alone. *)
Theorem getServerSnapshot_new_object_each_call (initialState : object)
    (options : StoreOptions) (override : props) (m : machine) :
  ssr_override options = Some override ->
  let r1 := getServerSnapshot initialState options m in
  let r2 := getServerSnapshot initialState options r1.2 in
  exists o1 o2,
    r1.1 = Normal o1 /\ r2.1 = Normal o2 /\
    Object_is (AObj o1) (AObj o2) = false /\
    shallowEqual (AObj o1) (AObj o2) = true /\
    r2.2.1 = m.1.
Proof.
  intros Hov r1 r2. subst r1 r2.
  rewrite !(getServerSnapshot_override _ _ _ _ Hov). cbn [fst snd].
  eexists _, _. split; [done|]. split; [done|]. split.
  - simpl. apply bool_decide_eq_false. lia.
  - split; [|done]. by apply shallowEqual_same_own.
Qed.

Lemma getServerSnapshot_new_object_each_call_witness :
  let r1 := getServerSnapshot (mkObject 0 (count 0)) (ssr_options (count 5))
              counter0 in
  let r2 := getServerSnapshot (mkObject 0 (count 0)) (ssr_options (count 5))
              r1.2 in
  exists o1 o2, r1.1 = Normal o1 /\ r2.1 = Normal o2 /\
                Object_is (AObj o1) (AObj o2) = false.
Proof.
  destruct (getServerSnapshot_new_object_each_call (mkObject 0 (count 0))
              (ssr_options (count 5)) (count 5) counter0)
    as (o1 & o2 & H1 & H2 & Hne & _).
  - reflexivity.
  - exists o1, o2. split; [exact H1|]. split; [exact H2|exact Hne].
Defined.

(** ** More on store definitions *)

(** X14. [parseStoreDefinition] splits a definition in two, key by key
    (the key [__proto__] apart, which the code's assignments drop): a
    function entry becomes an action and is no state key, with a callable
    made by [bindActionsToStore]; any other entry becomes a state key and
    has no callable; a key the definition lacks is in neither part. *)
Theorem parseStoreDefinition_partitions (store : StoreAPI)
    (definition : gmap string entry) (key : string) :
  key <> "__proto__" ->
  let parsed := parseStoreDefinition definition in
  let boundActions := bindActionsToStore store parsed.2 in
  match definition !! key with
  | Some (EAction a) =>
      parsed.2 !! key = Some a /\ parsed.1 !! key = None /\
      boundActions !! key = Some (boundAction store key a)
  | Some (EValue v) =>
      parsed.1 !! key = Some v /\ parsed.2 !! key = None /\
      boundActions !! key = None
  | None =>
      parsed.1 !! key = None /\ parsed.2 !! key = None /\
      boundActions !! key = None
  end.
Proof.
  intros _ parsed boundActions. subst parsed boundActions.
  rewrite bindActionsToStore_lookup, parseStoreDefinition_actions,
    parseStoreDefinition_state.
  by destruct (definition !! key) as [[v|a]|].
Qed.

(** In [error_definition], [count] is state and has no callable. *)
Lemma parseStoreDefinition_partitions_witness :
  let parsed := parseStoreDefinition error_definition in
  parsed.1 !! "count" = Some (VPrim (PNum 0)) /\ parsed.2 !! "count" = None.
Proof.
  pose proof (parseStoreDefinition_partitions
                (createStore error_definition no_options env0).1.1
                error_definition "count") as H.
  cbv zeta in H.
  assert (error_definition !! "count" = Some (EValue (VPrim (PNum 0)))) as E
    by (vm_compute; reflexivity).
  rewrite E in H. destruct H as (Hstate & Hact & _); [discriminate|].
  split; [exact Hstate|exact Hact].
Defined.



(** X16. When the write throws (the updater returned by the action throws,
    or a middleware does), the bound action logs the error with the
    message [[ServerSync] Error in action "<key>":], where [<key>] is the
    action's name, and throws it again; what the write did before
    throwing stays. *)
Theorem bound_action_rethrows_write_error (store : StoreAPI)
    (definition : gmap string entry) (key : string) (act : action)
    (args : list any) (u : updater) (x : exn) (m m' : machine) :
  definition !! key = Some (EAction act) ->
  key <> "__proto__" ->
  act args = Normal u ->
  api_setState store u m = (Throw x, m') ->
  exists bound,
    bindActionsToStore store (parseStoreDefinition definition).2 !! key
      = Some bound /\
    (bound args m).1 = Throw x /\
    (bound args m).2.1 = m'.1 /\
    console (bound args m).2.2
      = console m'.2
        ++ [("[ServerSync] Error in action "
               +:+ String "034"%char (key +:+ String "034"%char ":"), x)].
Proof.
  intros Hdef _ Hact Hset. exists (boundAction store key act). split.
  - by rewrite bindActionsToStore_lookup, parseStoreDefinition_actions, Hdef.
  - by rewrite (boundAction_write_throws store key act args u x m m' Hact Hset).
Qed.

(** The test of createStore.test.ts: [errorAction: () => () => { throw ... }]
    logs [[ServerSync] Error in action "errorAction":]. *)
Lemma bound_action_rethrows_write_error_witness :
  let created := createStore error_definition no_options env0 in
  exists bound,
    bindActionsToStore created.1.1 (parseStoreDefinition error_definition).2
      !! "errorAction" = Some bound /\
    (bound [] created.2).1 = Throw (Error "Action error") /\
    console (bound [] created.2).2.2
      = [("[ServerSync] Error in action "
            +:+ String "034"%char ("errorAction" +:+ String "034"%char ":"),
          Error "Action error")].
Proof.
  destruct (bound_action_rethrows_write_error
              (createStore error_definition no_options env0).1.1
              error_definition "errorAction"
              (fun _ => Normal (UFun (fun _ => Throw (Error "Action error")))) []
              (UFun (fun _ => Throw (Error "Action error"))) (Error "Action error")
              (createStore error_definition no_options env0).2
              (setState (UFun (fun _ => Throw (Error "Action error")))
                 (createStore error_definition no_options env0).2).2)
    as (bound & Hbound & Hthrow & _ & Hlog).
  - vm_compute. reflexivity.
  - discriminate.
  - reflexivity.
  - vm_compute. reflexivity.
  - exists bound. split; [exact Hbound|]. split; [exact Hthrow|exact Hlog].
Defined.

(** ** Creation, the registry and [destroy] *)

Lemma store_id_inj (n1 n2 : nat) : store_id n1 = store_id n2 -> n1 = n2.
Proof.
  unfold store_id. intros H. apply (inj pretty).
  by apply (inj (String.app "store_")) in H.
Qed.

Lemma registry_wf_fresh (e : env) :
  registry_wf e -> storeRegistry e !! store_id (S (storeIdCounter e)) = None.
Proof.
  intros Hwf. destruct (storeRegistry e !! _) as [n|] eqn:Hn; [|done].
  destruct (Hwf _ _ Hn) as [Hid Hle]. apply store_id_inj in Hid. lia.
Qed.

Lemma createStoreAPI_methods (initialState : object) (options : StoreOptions)
    (e : env) :
  let api := (createStoreAPI initialState options e).1 in
  api_getState api = getState /\
  api_subscribe api = subscribe /\
  api_getSnapshot api = getSnapshot /\
  api_getServerSnapshot api = getServerSnapshot initialState options /\
  api_destroy api = destroy (store_id (S (storeIdCounter e))).
Proof.
  unfold createStoreAPI, applyMiddleware. cbn [fst]. by destruct (Nat.ltb _ _).
Qed.

Lemma createStoreAPI_registry (initialState : object) (options : StoreOptions)
    (e : env) :
  storeRegistry (createStoreAPI initialState options e).2.2
  = if devtools_enabled options
    then <[store_id (S (storeIdCounter e)) := S (storeIdCounter e)]> (storeRegistry e)
    else storeRegistry e.
Proof. reflexivity. Qed.

Lemma createStoreAPI_registry_wf (initialState : object)
    (options : StoreOptions) (e : env) :
  registry_wf e -> registry_wf (createStoreAPI initialState options e).2.2.
Proof.
  intros Hwf k n Hk. rewrite createStoreAPI_registry in Hk.
  assert (storeIdCounter (createStoreAPI initialState options e).2.2
          = S (storeIdCounter e)) as -> by reflexivity.
  destruct (devtools_enabled options).
  - rewrite lookup_insert in Hk. case_decide as Hid.
    + injection Hk as <-. by split.
    + destruct (Hwf _ _ Hk). split; [done|lia].
  - destruct (Hwf _ _ Hk). split; [done|lia].
Qed.

(** X17. Creating a store never overwrites or removes a registry entry:
    the new store is registered under an id no entry has (unless
    [devtools] is [false], which leaves the registry as it is), and the
    registry stays one that only [createStoreAPI] has written. *)
Theorem createStoreAPI_keeps_registry (initialState : object)
    (options : StoreOptions) (e : env) :
  registry_wf e ->
  let e' := (createStoreAPI initialState options e).2.2 in
  let storeId := store_id (S (storeIdCounter e)) in
  storeRegistry e !! storeId = None /\
  (forall k n, storeRegistry e !! k = Some n -> storeRegistry e' !! k = Some n) /\
  storeRegistry e' !! storeId
    = (if devtools_enabled options then Some (S (storeIdCounter e)) else None) /\
  storeIdCounter e' = S (storeIdCounter e) /\
  registry_wf e'.
Proof.
  intros Hwf e' storeId. subst e' storeId.
  pose proof (registry_wf_fresh e Hwf) as Hfresh.
  split; [done|]. split; [|split; [|split; [done|]]].
  - intros k n Hk. rewrite createStoreAPI_registry.
    destruct (devtools_enabled options); [|done].
    rewrite lookup_insert_ne; [done|]. intros <-. congruence.
  - rewrite createStoreAPI_registry.
    destruct (devtools_enabled options); [by rewrite lookup_insert_eq|done].
  - by apply createStoreAPI_registry_wf.
Qed.

Lemma registry_wf_env0 : registry_wf env0.
Proof.
  intros k n H. change (storeRegistry env0) with (∅ : gmap string nat) in H.
  by rewrite lookup_empty in H.
Qed.

(** Two stores created one after the other are both registered. *)
Lemma createStoreAPI_keeps_registry_witness :
  let e1 := (createStoreAPI (mkObject 0 (count 0)) no_options (env_alloc env0)).2.2 in
  let e2 := (createStoreAPI (mkObject 0 (count 0)) no_options e1).2.2 in
  storeRegistry e2 !! "store_1" = Some 1 /\ storeRegistry e2 !! "store_2" = Some 2.
Proof.
  destruct (createStoreAPI_keeps_registry (mkObject 0 (count 0)) no_options
              (createStoreAPI (mkObject 0 (count 0)) no_options
                 (env_alloc env0)).2.2)
    as (_ & Hkeep & Hnew & _).
  - apply createStoreAPI_registry_wf. exact registry_wf_env0.
  - split; [|exact Hnew]. apply Hkeep. vm_compute. reflexivity.
Defined.

(** X18. Creating a store and destroying it leaves the registry as it was
    before the creation, whether [devtools] is enabled or not. *)
Theorem create_destroy_restores_registry (initialState : object)
    (options : StoreOptions) (e : env) :
  registry_wf e ->
  let created := createStoreAPI initialState options e in
  storeRegistry (exec (api_destroy created.1) created.2).2 = storeRegistry e.
Proof.
  intros Hwf created. subst created.
  destruct (createStoreAPI_methods initialState options e) as (_ & _ & _ & _ & ->).
  rewrite destroy_spec. cbn [snd storeRegistry env_unregister].
  rewrite createStoreAPI_registry.
  pose proof (registry_wf_fresh e Hwf) as Hfresh.
  destruct (devtools_enabled options).
  - by apply delete_insert_id.
  - by apply delete_id.
Qed.

Lemma create_destroy_restores_registry_witness :
  let created := createStoreAPI (mkObject 0 (count 0)) no_options
                   (env_alloc env0) in
  storeRegistry (exec (api_destroy created.1) created.2).2 = ∅.
Proof.
  apply (create_destroy_restores_registry (mkObject 0 (count 0)) no_options
           (env_alloc env0)).
  exact registry_wf_env0.
Defined.

(** X19. [destroy()] is idempotent. *)
Theorem destroy_idempotent (storeId : string) (m : machine) :
  exec (destroy storeId) (exec (destroy storeId) m) = exec (destroy storeId) m.
Proof.
  rewrite !destroy_spec. cbn [fst snd state]. unfold env_unregister.
  cbn [nextAddr storeRegistry storeIdCounter console calls].
  by rewrite delete_delete_eq.
Qed.

(** X20. A destroyed store still takes subscriptions: a listener subscribed
    after [destroy()] is the only one a changing write calls. *)
Theorem subscribe_after_destroy (storeId : string) (l : listener) (m : machine)
    (u : updater) (patch : props) :
  store_wf m ->
  patch_of u (state m.1) = Normal patch ->
  changes (own (state m.1)) patch ->
  let m1 := exec (subscribe l) (exec (destroy storeId) m) in
  calls (exec (setState u) m1).2 = calls m.2 ++ [lid l].
Proof.
  intros Hwf Hpatch Hch m1. subst m1. destruct m as [c e].
  unfold store_wf in Hwf. cbn [fst snd] in *.
  rewrite destroy_spec, subscribe_spec. cbn [fst snd state listeners].
  pose proof (guard_false_changes _ _ _ Hwf Hch) as Hguard.
  unfold exec.
  rewrite (setState_differs u (mkCell (state c) (Set_add l []))
             (env_unregister storeId e) patch Hpatch Hguard).
  reflexivity.
Qed.

Lemma subscribe_after_destroy_witness :
  calls (exec (setState (UPatch (count 1)))
           (exec (subscribe (quiet 9))
              (exec (destroy "store_1") (subscribe_all [quiet 4] counter0)))).2
  = [9].
Proof.
  apply (subscribe_after_destroy "store_1" (quiet 9)
           (subscribe_all [quiet 4] counter0) (UPatch (count 1)) (count 1)).
  - unfold store_wf. vm_compute. lia.
  - reflexivity.
  - exists "count", (VPrim (PNum 1)). split; [reflexivity|]. vm_compute. discriminate.
Defined.

(** X21. A new store holds a copy of [initialState]: an object with the
    same properties that is not the object passed in, whatever the
    options; [getState] and [getSnapshot] return it and nobody is
    subscribed. *)
Theorem createStoreAPI_copies_initialState (initialState : object)
    (options : StoreOptions) (e : env) :
  addr initialState < nextAddr e ->
  let created := createStoreAPI initialState options e in
  exists st,
    api_getState created.1 created.2 = (Normal st, created.2) /\
    api_getSnapshot created.1 created.2 = (Normal st, created.2) /\
    own st = own initialState /\
    Object_is (AObj st) (AObj initialState) = false /\
    shallowEqual (AObj st) (AObj initialState) = true /\
    listeners created.2.1 = [].
Proof.
  intros Hlt created. subst created.
  destruct (createStoreAPI_methods initialState options e) as (-> & _ & -> & _).
  rewrite getState_spec, getSnapshot_spec, createStoreAPI_cell.
  cbn [state listeners]. eexists. split; [done|]. split; [done|].
  split; [done|]. split.
  - simpl. apply bool_decide_eq_false. lia.
  - split; [|done]. by apply shallowEqual_same_own.
Qed.

Lemma createStoreAPI_copies_initialState_witness :
  let created := createStoreAPI (mkObject 0 (count 0)) (ssr_options (count 5))
                   (env_alloc env0) in
  exists st, api_getSnapshot created.1 created.2 = (Normal st, created.2) /\
             own st = count 0.
Proof.
  destruct (createStoreAPI_copies_initialState (mkObject 0 (count 0))
              (ssr_options (count 5)) (env_alloc env0))
    as (st & _ & Hsnap & Hown & _).
  - vm_compute. lia.
  - exists st. split; [exact Hsnap|exact Hown].
Defined.

(** Every operation on a store keeps the registry one that only
    [createStoreAPI] has written. *)
Lemma run_op_registry_wf (storeId : string) (initialState : object)
    (options : StoreOptions) (o : op) (m : machine) :
  registry_wf m.2 -> registry_wf (run_op storeId initialState options o m).2.
Proof.
  intros Hwf. destruct o as [u|l|l| |]; cbn [run_op]; try done.
  - destruct m as [c e]. unfold exec. cbn [fst snd] in *.
    destruct (patch_of u (state c)) as [patch|x] eqn:Hpatch.
    + destruct (shallowEqual (AObj (state c))
                  (AObj (mkObject (nextAddr e) (spread2 (own (state c)) patch))))
        eqn:Hguard.
      * by rewrite (setState_equal u c e patch Hpatch Hguard).
      * by rewrite (setState_differs u c e patch Hpatch Hguard).
    + by rewrite (setState_throws u c e x Hpatch).
  - unfold exec, getServerSnapshot. by destruct (ssr_override options).
  - rewrite destroy_spec. intros k n. cbn [snd storeRegistry env_unregister].
    intros Hk. apply lookup_delete_Some in Hk as [_ Hk]. by apply Hwf.
Qed.

(** ** The [createStore] of core.ts *)

Lemma spread_members_union (x y : gmap string core_ts.member) :
  core_ts.spread_members x y = y ∪ x.
Proof.
  unfold core_ts.spread_members.
  assert (forall target source : gmap string core_ts.member,
            map_fold (fun k v acc => <[k := v]> acc) target source
            = source ∪ target) as Hcopy.
  { intros target source.
    apply (map_fold_weak_ind
             (fun r (m : gmap string core_ts.member) => r = m ∪ target)).
    - by rewrite (left_id_L ∅ (∪)).
    - intros k v m r _ ->. by rewrite insert_union_l. }
  by rewrite !Hcopy, (right_id_L ∅ (∪)).
Qed.

(** X22. In the object the [createStore] of core.ts returns, every action
    of the definition (under a key other than [__proto__], which the code
    never binds) is a member under its own name, also when the name is
    that of a store method ([getState], [setState], ...), which it then
    replaces; every other name is the store method of that name, if there
    is one. *)
Theorem core_createStore_members (definition : gmap string entry)
    (options : StoreOptions) (e : env) (key : string) :
  key <> "__proto__" ->
  let result := core_ts.createStore definition options e in
  let store :=
    (createStoreAPI (mkObject (nextAddr e) (parseStoreDefinition definition).1)
                    options (env_alloc e)).1 in
  result.1 !! key
  = match definition !! key with
    | Some (EAction a) =>
        Some (core_ts.MAction
                (fun args => updater ← liftC (a args); api_setState store updater))
    | _ => core_ts.api_members store !! key
    end.
Proof.
  intros _ result store. subst result. unfold core_ts.createStore. cbn [fst].
  fold store. rewrite spread_members_union, lookup_union, lookup_fmap.
  rewrite bindActions_lookup, parseStoreDefinition_actions.
  destruct (definition !! key) as [[v|a]|]; cbn [fmap option_fmap option_map].
  - by rewrite (left_id_L None union).
  - by destruct (core_ts.api_members store !! key).
  - by rewrite (left_id_L None union).
Qed.

(** A definition without a [getState] entry: the member [getState] is the
    store's own. *)
Lemma core_createStore_members_witness :
  let result := core_ts.createStore error_definition no_options env0 in
  let store :=
    (createStoreAPI (mkObject 0 (parseStoreDefinition error_definition).1)
                    no_options (env_alloc env0)).1 in
  result.1 !! "getState" = Some (core_ts.MRead (api_getState store)).
Proof.
  pose proof (core_createStore_members error_definition no_options env0
                "getState") as H.
  cbv zeta in H.
  assert (error_definition !! "getState" = None) as E
    by (vm_compute; reflexivity).
  rewrite E in H. apply H. discriminate.
Defined.

(** An action named [setState] takes the place of the store's
    [setState]. *)
Example core_createStore_shadowing :
  let definition : gmap string entry :=
    {[ "count" := EValue (VPrim (PNum 0));
       "setState" := EAction (fun _ => Normal increment) ]} in
  let result := core_ts.createStore definition no_options env0 in
  match result.1 !! "setState", result.1 !! "getState" with
  | Some (core_ts.MAction f), Some (core_ts.MRead g) =>
      own (state (f [] result.2).2.1) = count 1
  | _, _ => False
  end.
Proof. vm_compute. reflexivity. Qed.


(** ** Definitions put together from state and actions *)

(** X24. A definition made of state entries and action entries under
    different names, none of them [__proto__] (which the code's
    assignments drop), is parsed back into exactly these two parts. *)
Theorem parseStoreDefinition_round_trip (st : props) (acts : gmap string action) :
  (forall k, st !! k = None \/ acts !! k = None) ->
  st !! "__proto__" = None ->
  acts !! "__proto__" = None ->
  parseStoreDefinition ((EValue <$> st) ∪ (EAction <$> acts)) = (st, acts).
Proof.
  intros Hdisj _ _.
  destruct (parseStoreDefinition ((EValue <$> st) ∪ (EAction <$> acts)))
    as [st' acts'] eqn:Hparse.
  assert (forall k, st' !! k = st !! k /\ acts' !! k = acts !! k) as Hk.
  { intros k.
    pose proof (parseStoreDefinition_state
                  ((EValue <$> st) ∪ (EAction <$> acts)) k) as Hs.
    pose proof (parseStoreDefinition_actions
                  ((EValue <$> st) ∪ (EAction <$> acts)) k) as Ha.
    rewrite Hparse in Hs, Ha. cbn [fst snd] in Hs, Ha. rewrite Hs, Ha.
    rewrite lookup_union, !lookup_fmap.
    destruct (Hdisj k) as [Hnone|Hnone]; rewrite Hnone;
      [destruct (acts !! k)|destruct (st !! k)]; done. }
  f_equal; apply map_eq; intros k; by destruct (Hk k).
Qed.

Lemma parseStoreDefinition_round_trip_witness :
  parseStoreDefinition
    ((EValue <$> count 0)
       ∪ (EAction <$> ({[ "increment" := fun _ => Normal increment ]}
                       : gmap string action)))
  = (count 0, {[ "increment" := fun _ => Normal increment ]}).
Proof.
  apply (parseStoreDefinition_round_trip (count 0)
           {[ "increment" := fun _ => Normal increment ]}).
  - intros k. destruct (decide (k = "count")) as [->|Hne].
    + right. reflexivity.
    + left. by apply lookup_singleton_ne.
  - reflexivity.
  - reflexivity.
Defined.

(** ** The reference read by the rendering layer *)

(** X25. After a write, [getSnapshot] returns the reference it returned
    before exactly when the write changed no property: an unchanged state
    keeps its identity, a changed one is a new object. *)
Theorem snapshot_identity_tracks_change (u : updater) (m : machine)
    (patch : props) :
  store_wf m ->
  patch_of u (state m.1) = Normal patch ->
  let m' := exec (setState u) m in
  exists before after,
    getSnapshot m = (Normal before, m) /\
    getSnapshot m' = (Normal after, m') /\
    (Object_is (AObj after) (AObj before) = true <-> own after = own before) /\
    (own after = own before <-> ~ changes (own before) patch).
Proof.
  intros Hwf Hpatch m'. exists (state m.1), (state m'.1).
  rewrite !getSnapshot_spec. split; [done|]. split; [done|].
  pose proof (setState_contents u m patch Hwf Hpatch) as Hown. fold m' in Hown.
  assert (own (state m'.1) = own (state m.1) <-> ~ changes (own (state m.1)) patch)
    as Hiff.
  { rewrite Hown, changes_union. split; [by intros -> ?|].
    intros Hnn. by destruct (decide (patch ∪ own (state m.1) = own (state m.1))). }
  split; [|done]. subst m'. destruct m as [c e].
  unfold store_wf, exec in *. cbn [fst snd] in *.
  destruct (shallowEqual (AObj (state c))
              (AObj (mkObject (nextAddr e) (spread2 (own (state c)) patch))))
    eqn:Hguard.
  - rewrite (setState_equal u c e patch Hpatch Hguard). cbn [fst snd].
    by rewrite Object_is_refl.
  - rewrite (setState_differs u c e patch Hpatch Hguard) in *. cbn [fst snd state] in *.
    split.
    + simpl. intros Hsame%bool_decide_eq_true. lia.
    + intros Hsame. exfalso. apply Hiff in Hsame. apply Hsame.
      apply changes_union. intros Heq.
      assert (shallowEqual (AObj (state c))
                (AObj (mkObject (nextAddr e) (spread2 (own (state c)) patch)))
              = true); [|congruence].
      apply shallowEqual_same_own. simpl. by rewrite spread2_union.
Qed.

Lemma snapshot_identity_tracks_change_witness :
  exists before after,
    getSnapshot counter0 = (Normal before, counter0) /\
    getSnapshot (exec (setState increment) counter0)
      = (Normal after, exec (setState increment) counter0) /\
    (Object_is (AObj after) (AObj before) = true <-> own after = own before).
Proof.
  destruct (snapshot_identity_tracks_change increment counter0 (count 1))
    as (before & after & Hb & Ha & Hid & _).
  - unfold store_wf. vm_compute. lia.
  - reflexivity.
  - exists before, after. split; [exact Hb|]. split; [exact Ha|exact Hid].
Defined.
